(** * optimize_geojson.py: counting, rounding and simplifying GeoJSON geometries

    A shallow embedding of the geometry engine of [optimize_geojson.py]
    ([count_coordinates], [round_coordinates], [simplify_line] with its two
    inner helpers, and [simplify_geometry]) and the properties its
    specification states about it.

    Conventions of the embedding.
    - A Python exception is the result [None] of the option monad.
    - The [coordinates] payload is a JSON tree: nested lists whose leaves are
      numbers or [None].
    - A geometry dict is mutable and passed by reference, so the two
      functions that assign to [geometry['coordinates']] run over a heap
      that maps a reference to the object it reaches (a dict, or [None]).
      Lists are never written in place by the program (only fresh lists are
      appended to), so they are kept by value.
    - Numbers are abstract: the program is parametric in the arithmetic it
      calls (Python ints and floats), which is an interface here; binary64
      floats and the real numbers are instances. *)

From Stdlib Require Import ZArith Reals Floats Lra Lia.
From stdpp Require Import option strings pretty gmap list.

Set Default Proof Using "Type*".
Set Warnings "-inexact-float,-register-all".

(** ** Numbers *)

(** The arithmetic [perpendicular_distance] and [douglas_peucker] perform on
    coordinates.  Every operation that can raise in Python ([OverflowError]
    from [**] or from an int too large for a float, [ZeroDivisionError])
    returns an option. *)
Class Arith (num : Type) := {
  zero : num;                          (* the literal [0] *)
  sub : num → num → option num;        (* [a - b] *)
  add : num → num → option num;        (* [a + b] *)
  mul : num → num → option num;        (* [a * b] *)
  div : num → num → option num;        (* [a / b] *)
  absolute : num → num;                (* [abs(a)] *)
  pow_2 : num → option num;            (* [a ** 2] *)
  pow_half : num → option num;         (* [a ** 0.5] *)
  eq_zero : num → bool;                (* [a == 0] *)
  gt : num → num → bool;               (* [a > b] *)
}.

(** The builtin [round(c, precision)] on a number. *)
Class Rounding (num : Type) := {
  py_round : num → Z → option num;
}.

(** ** JSON values *)

(** What [json.load] puts under [coordinates]: [None], a number, or a list.
    Strings, booleans and dicts do not occur in a coordinates payload and are
    left out. *)
Inductive value (num : Type) : Type :=
| VNone
| VNum (x : num)
| VList (items : list (value num)).
Arguments VNone {num}.
Arguments VNum {num} x.
Arguments VList {num} items.

Section Values.
Context {num : Type}.
Implicit Types (v : value num) (l : list (value num)).

(** [len(v)]: a [TypeError] unless [v] is a list. *)
Definition len v : option nat :=
  match v with VList l => Some (length l) | _ => None end.

(** The elements a [for] loop over [v] visits. *)
Definition items v : option (list (value num)) :=
  match v with VList l => Some l | _ => None end.

(** [isinstance(v, list)]. *)
Definition is_list v : bool :=
  match v with VList _ => true | _ => false end.

(** [v[i]] read as a number.  The program only feeds [point[0]] and
    [point[1]] to arithmetic that raises on anything but a number, so the
    check is made at the read. *)
Definition num_at v (i : nat) : option num :=
  match v with
  | VList l => match l !! i with Some (VNum x) => Some x | _ => None end
  | _ => None
  end.

(** Nesting depth of a coordinate tree: 0 for a leaf. *)
Fixpoint depth v : nat :=
  match v with
  | VList l => S (foldr (λ c d, depth c `max` d) 0 l)
  | _ => 0
  end.
End Values.

(** ** Geometries *)

(** A geometry as the program sees it: [None], or a dict of which it reads
    the keys [type], [coordinates] and [geometries] (each may be absent).
    Keys the program never reads are left out.  Member geometries of a
    collection are never written, so they are kept by value. *)
Inductive geometry (num : Type) : Type :=
| GNone
| GDict (type : option string) (coordinates : option (value num))
        (geometries : option (list (geometry num))).
Arguments GNone {num}.
Arguments GDict {num} type coordinates geometries.

Section Geometry.
Context {num : Type}.
Implicit Types (g : geometry num) (v : value num).

(** [not geometry]: [None] or the empty dict. *)
Definition falsy g : bool :=
  match g with
  | GNone | GDict None None None => true
  | _ => false
  end.

(** [geometry.get('type', '')]. *)
Definition get_type g : string :=
  match g with GDict (Some t) _ _ => t | _ => "" end.

(** [geometry.get('coordinates', dflt)]. *)
Definition get_coordinates g (dflt : value num) : value num :=
  match g with GDict _ (Some c) _ => c | _ => dflt end.

(** [geometry.get('geometries', [])]. *)
Definition get_geometries g : list (geometry num) :=
  match g with GDict _ _ (Some gs) => gs | _ => [] end.

(** [geometry['coordinates'] = c]. *)
Definition set_coordinates g v : geometry num :=
  match g with
  | GDict ty _ gs => GDict ty (Some v) gs
  | GNone => GNone
  end.

(** [sum(...)] over a generator whose terms may raise. *)
Definition sum_of {A} (f : A → option nat) (xs : list A) : option nat :=
  foldr Nat.add 0 <$> mapM f xs.

(** [count_coordinates(geometry)]. *)
Fixpoint count_coordinates g : option nat :=
  if falsy g then Some 0 else
  let geom_type := get_type g in
  let coords := get_coordinates g (VList []) in
  if String.eqb geom_type "Point" then Some 1
  else if String.eqb geom_type "LineString" then len coords
  else if String.eqb geom_type "Polygon" then
    rings ← items coords; sum_of len rings
  else if String.eqb geom_type "MultiPolygon" then
    polygons ← items coords;
    sum_of (λ polygon, rings ← items polygon; sum_of len rings) polygons
  else if String.eqb geom_type "MultiPoint" || String.eqb geom_type "MultiLineString" then
    parts ← items coords;
    sum_of (λ part, if is_list part then len part else Some 1) parts
  else if String.eqb geom_type "GeometryCollection" then
    (* over [geometry.get('geometries', [])], read in place so that the
       recursion is structural *)
    match g with
    | GDict _ _ (Some gs) => sum_of count_coordinates gs
    | _ => Some 0
    end
  else Some 0.
End Geometry.

(** ** The heap of geometry dicts *)

Definition loc := nat.
Abbreviation heap num := (gmap loc (geometry num)).

(** ** CoordinateRounder *)

Section Rounder.
Context {num : Type} `{!Arith num, !Rounding num}.
Implicit Types (g : geometry num) (v : value num) (h : heap num).

(** [bool(v)] for a coordinates payload: [None], [0] and [[]] are false. *)
Definition truthy v : bool :=
  match v with
  | VNone => false
  | VNum x => negb (eq_zero x)
  | VList l => negb (bool_decide (length l = 0))
  end.

(** The inner [round_coord(coord)], closed over [precision]. *)
Fixpoint round_coord (precision : Z) (coord : value num) : option (value num) :=
  match coord with
  | VNum x => VNum <$> py_round x precision
  | VList l =>
      VList <$> mapM (λ c, match c with
                           | VNum x => VNum <$> py_round x precision
                           | _ => round_coord precision c
                           end) l
  | VNone => Some coord
  end.

(** [round_coordinates(geometry, precision)]: the dict at [geometry] is
    written in place and the same reference is returned. *)
Definition round_coordinates (geometry : loc) (precision : Z) h
    : option (loc * heap num) :=
  g ← h !! geometry;
  if falsy g then Some (geometry, h) else
  let coords := get_coordinates g VNone in
  if negb (truthy coords) then Some (geometry, h) else
  rounded ← round_coord precision coords;
  Some (geometry, <[geometry := set_coordinates g rounded]> h).
End Rounder.

(** ** LineSimplifier: Douglas-Peucker *)

Section Simplifier.
Context {num : Type} `{!Arith num}.
Implicit Types (g : geometry num) (v : value num) (h : heap num)
               (points : list (value num)).

(** The inner [perpendicular_distance(point, line_start, line_end)]. *)
Definition perpendicular_distance (point line_start line_end : value num)
    : option num :=
  x ← num_at point 0; y ← num_at point 1;
  x1 ← num_at line_start 0; y1 ← num_at line_start 1;
  x2 ← num_at line_end 0; y2 ← num_at line_end 1;
  (* num = abs((y2 - y1) * x - (x2 - x1) * y + x2 * y1 - y2 * x1) *)
  dy ← sub y2 y1; a ← mul dy x;
  dx ← sub x2 x1; b ← mul dx y;
  ab ← sub a b;
  c ← mul x2 y1; abc ← add ab c;
  d ← mul y2 x1; abcd ← sub abc d;
  let num_ := absolute abcd in
  (* den = ((y2 - y1) ** 2 + (x2 - x1) ** 2) ** 0.5 *)
  dy' ← sub y2 y1; dy2 ← pow_2 dy';
  dx' ← sub x2 x1; dx2 ← pow_2 dx';
  s ← add dy2 dx2; den ← pow_half s;
  if eq_zero den then
    (* ((x - x1) ** 2 + (y - y1) ** 2) ** 0.5 *)
    ex ← sub x x1; ex2 ← pow_2 ex;
    ey ← sub y y1; ey2 ← pow_2 ey;
    e ← add ex2 ey2; pow_half e
  else div num_ den.

(** The [for i in range(1, end)] loop of [douglas_peucker], over the
    indices still to visit, with the running [index] and [dmax]. *)
Fixpoint farthest points (end_ : nat) (range : list nat) (index : nat) (dmax : num)
    : option (nat * num) :=
  match range with
  | [] => Some (index, dmax)
  | i :: range' =>
      p ← points !! i; first ← points !! 0; last_ ← points !! end_;
      d ← perpendicular_distance p first last_;
      if gt d dmax then farthest points end_ range' i d
      else farthest points end_ range' index dmax
  end.

(** The inner [douglas_peucker(points, tolerance)].  [fuel] bounds the
    nesting of the recursion; running out of it stands for the
    [RecursionError] of a recursion that never ends.  The interpreter's own
    bound on the depth of the call stack is a resource limit and is not
    modelled. *)
Fixpoint douglas_peucker (fuel : nat) points (tolerance : num)
    : option (list (value num)) :=
  if bool_decide (length points ≤ 2) then Some points else
  match fuel with
  | O => None
  | S fuel' =>
      let end_ := length points - 1 in
      '(index, dmax) ← farthest points end_ (seq 1 (end_ - 1)) 0 zero;
      if gt dmax tolerance then
        rec_results1 ← douglas_peucker fuel' (take (index + 1) points) tolerance;
        rec_results2 ← douglas_peucker fuel' (drop index points) tolerance;
        Some (take (length rec_results1 - 1) rec_results1 ++ rec_results2)
      else
        first ← points !! 0; last_ ← points !! end_;
        Some [first; last_]
  end.

(** [simplify_line(coords, tolerance)].  A run that terminates never nests
    deeper than [len(coords)] calls, which is the fuel given. *)
Definition simplify_line (coords : value num) (tolerance : num)
    : option (value num) :=
  n ← len coords;
  if bool_decide (n ≤ 2) then Some coords else
  points ← items coords;
  VList <$> douglas_peucker (length points) points tolerance.

(** ** GeometrySimplifier *)

(** The body of the ring loops: the simplified ring when it keeps at least
    [least] points, else the ring as it was. *)
Definition simplify_or_keep (least : nat) (tolerance : num) (line : value num)
    : option (value num) :=
  simplified ← simplify_line line tolerance;
  n ← len simplified;
  Some (if bool_decide (least ≤ n) then simplified else line).

(** [if simplified_polygon:] on a list of rings. *)
Definition nonempty (rings : list (value num)) : bool :=
  negb (bool_decide (length rings = 0)).

(** [simplify_geometry(geometry, tolerance)]: the dict at [geometry] is
    written in place and the same reference is returned. *)
Definition simplify_geometry (geometry : loc) (tolerance : num) h
    : option (loc * heap num) :=
  g ← h !! geometry;
  if falsy g then Some (geometry, h) else
  let geom_type := get_type g in
  let coords := get_coordinates g (VList []) in
  if String.eqb geom_type "Point" || String.eqb geom_type "MultiPoint" then
    Some (geometry, h)
  else if String.eqb geom_type "LineString" then
    simplified ← simplify_line coords tolerance;
    n ← len simplified;
    if bool_decide (2 ≤ n)
    then Some (geometry, <[geometry := set_coordinates g simplified]> h)
    else Some (geometry, h)
  else if String.eqb geom_type "MultiLineString" then
    lines ← items coords;
    simplified_coords ← mapM (simplify_or_keep 2 tolerance) lines;
    Some (geometry, <[geometry := set_coordinates g (VList simplified_coords)]> h)
  else if String.eqb geom_type "Polygon" then
    rings ← items coords;
    simplified_coords ← mapM (simplify_or_keep 4 tolerance) rings;
    Some (geometry, <[geometry := set_coordinates g (VList simplified_coords)]> h)
  else if String.eqb geom_type "MultiPolygon" then
    polygons ← items coords;
    simplified_polygons ←
      mapM (λ polygon, rings ← items polygon;
                       mapM (simplify_or_keep 4 tolerance) rings) polygons;
    let simplified_coords := VList <$> filter (λ p, nonempty p) simplified_polygons in
    Some (geometry, <[geometry := set_coordinates g (VList simplified_coords)]> h)
  else Some (geometry, h).
End Simplifier.

(** ** Vocabulary of the properties *)

Section Vocabulary.
Context {num : Type} `{!Arith num}.
Implicit Types (g : geometry num) (v c line : value num)
               (points out : list (value num)) (tol : num).

(** The seven tags [count_coordinates] dispatches on. *)
Definition recognised (t : string) : bool :=
  bool_decide (t ∈ ["Point"; "LineString"; "Polygon"; "MultiPolygon";
                    "MultiPoint"; "MultiLineString"; "GeometryCollection"]%string).

(** The numbers of a coordinate tree, left to right. *)
Fixpoint leaves v : list num :=
  match v with
  | VNone => []
  | VNum x => [x]
  | VList l => concat (leaves <$> l)
  end.

(** The tree with its numbers erased: what is left is its nesting. *)
Fixpoint shape v : value unit :=
  match v with
  | VNone => VNone
  | VNum _ => VNum tt
  | VList l => VList (shape <$> l)
  end.


(** What the claim says of the output: a subsequence with the same ends. *)
Definition keeps_ends points out : Prop :=
  out `sublist_of` points ∧ head out = head points ∧ last out = last points.




(** [line'] is a list no longer than the list [line]. *)
Definition no_longer line' line : Prop :=
  ∃ ps' ps, line' = VList ps' ∧ line = VList ps ∧ length ps' ≤ length ps.

(** What one round of the ring loop appends for [line]. *)
Definition ring_rule (least : nat) tol line line' : Prop :=
  ∃ out, simplify_line line tol = Some (VList out)
         ∧ line' = if bool_decide (least ≤ length out) then VList out else line.


End Vocabulary.

(** ** Instance: binary64 floats *)

(** Python's [float] is IEEE binary64, which is Rocq's primitive [float].
    [x ** 2] and [x ** 0.5] call the C library's [pow]; they are taken here
    as correctly rounded, that is as [x * x] and [sqrt x].  An integer of
    the input is read as the float of the same value. *)
Module Binary64.
Local Open Scope float_scope.

Definition is_finite (x : float) : bool := negb (is_nan x || is_infinity x).

(** [float_pow] raises [OverflowError] when a finite base overflows. *)
Definition float_pow_2 (x : float) : option float :=
  let r := x * x in
  if is_finite x && is_infinity r then None else Some r.

(** A negative base gives a complex number in Python, on which the
    comparison that follows in [douglas_peucker] raises: [None] here. *)
Definition float_pow_half (x : float) : option float :=
  if x <? 0 then (if is_infinity x then Some infinity else None)
  else Some (PrimFloat.abs (PrimFloat.sqrt x)).

(** [ZeroDivisionError] on a zero divisor. *)
Definition float_div (x y : float) : option float :=
  if y =? 0 then None else Some (x / y).

#[export] Instance float_arith : Arith float := {|
  zero := 0;
  sub x y := Some (x - y);
  add x y := Some (x + y);
  mul x y := Some (x * y);
  div := float_div;
  absolute := PrimFloat.abs;
  pow_2 := float_pow_2;
  pow_half := float_pow_half;
  eq_zero x := x =? 0;
  gt x y := y <? x;
|}.

(** [a / b] rounded to the nearest integer, ties to even ([b] positive). *)
Definition div_half_even (a b : Z) : Z :=
  let q := (a / b)%Z in
  match (2 * (a mod b) ?= b)%Z with
  | Lt => q
  | Gt => (q + 1)%Z
  | Eq => if Z.even q then q else (q + 1)%Z
  end.

(** [float.__round__(x, ndigits)]: the decimal with [ndigits] places
    nearest to the exact value of [x] (ties to even), then the float
    nearest to that decimal; [OverflowError] when that float is infinite.
    Beyond 323 places [x] is returned, below -308 a zero. *)
Definition float_round (x : float) (ndigits : Z) : option float :=
  match Prim2SF x with
  | S754_finite s m e =>
      if (323 <? ndigits)%Z then Some x
      else if (ndigits <? -308)%Z then Some (0 * x)
      else
        let a := (Zpos m * 2 ^ Z.max e 0 * 10 ^ Z.max ndigits 0)%Z in
        let b := (2 ^ Z.max (- e) 0 * 10 ^ Z.max (- ndigits) 0)%Z in
        match (div_half_even a b * 10 ^ Z.max (- ndigits) 0)%Z with
        | Zpos n =>
            let r := SFdiv prec emax (S754_finite s n 0)
                                     (S754_finite false (Z.to_pos (10 ^ Z.max ndigits 0)) 0) in
            match r with
            | S754_infinity _ => None
            | _ => Some (SF2Prim r)
            end
        | _ => Some (SF2Prim (S754_zero s))
        end
  | _ => Some x
  end.

#[export] Instance float_rounding : Rounding float := {| py_round := float_round |}.
End Binary64.

(** ** Instance: real numbers *)

(** The arithmetic of the program read over the reals: no rounding, no
    overflow.  Only a zero divisor and the root of a negative number fail. *)
Module Real.
Local Open Scope R_scope.

#[export] Instance R_eq_dec : EqDecision R := Req_dec_T.
#[export] Instance Rlt_decision (x y : R) : Decision (x < y) := Rlt_dec x y.

#[export] Instance real_arith : Arith R := {|
  zero := 0;
  sub x y := Some (x - y);
  add x y := Some (x + y);
  mul x y := Some (x * y);
  div x y := if decide (y = 0) then None else Some (x / y);
  absolute := Rabs;
  pow_2 x := Some (x * x);
  pow_half x := if decide (x < 0) then None else Some (R_sqrt.sqrt x);
  eq_zero x := bool_decide (x = 0);
  gt x y := bool_decide (y < x);
|}.





End Real.

(** ** Sample geometries over binary64 *)

Module Samples.
Import Binary64.
Local Open Scope float_scope.

(** A coordinate pair [[x, y]]. *)
Definition pt (x y : float) : value float := VList [VNum x; VNum y].

Definition tag (t : string) : option string := Some t.

(** [{"type": "Point"}], with no [coordinates] key. *)
Definition bare_point : geometry float := GDict (tag "Point") None None.

(** The line of scenario 1. *)
Definition scenario1_line : value float :=
  VList [pt 0 0; pt 1 0.00001; pt 2 0; pt 3 10; pt 4 0].

(** A point and a three-point line, and the collection holding both. *)
Definition a_point : geometry float :=
  GDict (tag "Point") (Some (pt 12.3456789 (-45.6789012))) None.
Definition a_line : geometry float :=
  GDict (tag "LineString") (Some (VList [pt 0 0; pt 1 0; pt 2 0])) None.
Definition a_collection : geometry float :=
  GDict (tag "GeometryCollection") None (Some [a_point; a_line]).

(** A closed triangle ring, and a multi-polygon made of that one ring. *)
Definition triangle : value float := VList [pt 0 0; pt 1 0; pt 1 1; pt 0 0].
End Samples.

(** ** The sample coordinate of the analysis *)

Section FirstCoordinate.
Context {num : Type} `{!Arith num}.
Implicit Types (g : geometry num) (v : value num).

(** [v[i]]: a [TypeError] unless [v] is a list, an [IndexError] past its
    end. *)
Definition item_at v (i : nat) : option (value num) :=
  match v with VList l => l !! i | _ => None end.

(** [get_first_coordinate(geometry)].  Python's [None] is [VNone]. *)
Definition get_first_coordinate (geometry : geometry num) : option (value num) :=
  if falsy geometry then Some VNone else
  let coords := get_coordinates geometry VNone in
  if negb (truthy coords) then Some VNone else
  let geom_type := get_type geometry in
  if String.eqb geom_type "Point" then Some coords
  else if String.eqb geom_type "LineString" || String.eqb geom_type "MultiPoint" then
    (* coords[0] if coords else None *)
    if truthy coords then item_at coords 0 else Some VNone
  else if String.eqb geom_type "Polygon" || String.eqb geom_type "MultiLineString" then
    (* coords[0][0] if coords and coords[0] else None *)
    if truthy coords then
      c0 ← item_at coords 0;
      if truthy c0 then item_at c0 0 else Some VNone
    else Some VNone
  else if String.eqb geom_type "MultiPolygon" then
    (* coords[0][0][0] if coords and coords[0] and coords[0][0] else None *)
    if truthy coords then
      c0 ← item_at coords 0;
      if truthy c0 then
        c00 ← item_at c0 0;
        if truthy c00 then item_at c00 0 else Some VNone
      else Some VNone
    else Some VNone
  else Some VNone.
End FirstCoordinate.

(** ** Feature names *)

(** A value of a [properties] dict: [None], a bool, an int or a string.
    Floats are left out: [str] prints them by their shortest repr, which is
    not modelled. *)
Inductive prop : Type :=
| PNone
| PBool (b : bool)
| PInt (z : Z)
| PStr (s : string).

(** [bool(v)]. *)
Definition prop_truthy (v : prop) : bool :=
  match v with
  | PNone => false
  | PBool b => b
  | PInt z => negb (z =? 0)%Z
  | PStr s => negb (String.eqb s "")
  end.

(** [str(v)]. *)
Definition prop_str (v : prop) : string :=
  match v with
  | PNone => "None"
  | PBool b => if b then "True" else "False"
  | PInt z => pretty z
  | PStr s => s
  end.

Definition name_fields : list string :=
  ["NAME"; "Name"; "name"; "TITLE"; "Title"; "title"; "LABEL"; "Label"; "label";
   "ID"; "Id"; "id"; "FID"; "OBJECTID"]%string.

(** The [for field in name_fields] loop over the fields still to try. *)
Fixpoint scan_fields (fields : list string) (properties : gmap string prop)
    : option string :=
  match fields with
  | [] => None
  | field :: fields' =>
      match properties !! field with
      | Some v => if prop_truthy v then Some (prop_str v)
                  else scan_fields fields' properties
      | None => scan_fields fields' properties
      end
  end.

(** [get_feature_name(properties)].  The argument is [None] when the feature
    says ["properties": null]; [field in None] is a [TypeError].  The result
    is a string or Python's [None]. *)
Definition get_feature_name (properties : option (gmap string prop))
    : option (option string) :=
  match properties with
  | None => None
  | Some d => Some (scan_fields name_fields d)
  end.

(** What [get_feature_name] sees of a field: the string of its value, when
    the field is there and its value counts as true. *)
Definition usable_name (d : gmap string prop) (field : string) : option string :=
  match d !! field with
  | Some v => if prop_truthy v then Some (prop_str v) else None
  | None => None
  end.

(** ** Features and the two passes over them *)

(** A feature dict: its [geometry] key, absent or a reference, and the
    members neither pass writes, kept as they are. *)
Record feature (A : Type) : Type := Feature {
  f_geometry : option loc;
  f_members : A;
}.
Arguments Feature {A} f_geometry f_members.
Arguments f_geometry {A} _.
Arguments f_members {A} _.

(** What the loop of [analyze_geojson] accumulates.  [min_coords] starts at
    [float('inf')], which is [None] here. *)
Record stats : Type := Stats {
  total_coords : nat;
  max_coords : nat;
  max_coords_idx : nat;
  min_coords : option nat;
  geometry_types : list (string * nat);
}.

Section Passes.
Context {num : Type} `{!Arith num, !Rounding num} {A : Type}.
Implicit Types (g : geometry num) (h : heap num) (f : feature A).

(** [feature.get('geometry', {})], read by value: the default [{}] is a
    temporary that is only read. *)
Definition feature_geometry f h : option (geometry num) :=
  match f_geometry f with
  | Some l => h !! l
  | None => Some (GDict None None None)
  end.

(** A new dict object holding [g]. *)
Definition alloc g h : loc * heap num :=
  let l := fresh (dom h) in (l, <[l := g]> h).

(** [geom.copy()]: a shallow copy of a dict; [None] has no such method. *)
Definition dict_copy g h : option (loc * heap num) :=
  match g with
  | GNone => None
  | GDict _ _ _ => Some (alloc g h)
  end.

(** The body of the loop of [optimize_geojson] for one feature: the
    optimized feature with the two counts, and the heap afterwards. *)
Definition optimize_feature (simplify_tolerance : num) (coord_precision : Z) f h
    : option (feature A * nat * nat * heap num) :=
  geom ← feature_geometry f h;
  coords_before ← count_coordinates geom;
  '(copy, h1) ← dict_copy geom h;
  '(simplified_geom, h2) ← simplify_geometry copy simplify_tolerance h1;
  '(rounded_geom, h3) ← round_coordinates simplified_geom coord_precision h2;
  rounded ← h3 !! rounded_geom;
  coords_after ← count_coordinates rounded;
  Some (Feature (Some rounded_geom) (f_members f), coords_before, coords_after, h3).

(** The loop of [optimize_geojson] over the features still to process, with
    the running [optimized_features] and the two totals. *)
Fixpoint optimize_features (simplify_tolerance : num) (coord_precision : Z)
    (features : list (feature A)) (optimized_features : list (feature A))
    (total_coords_before total_coords_after : nat) h
    : option (list (feature A) * nat * nat * heap num) :=
  match features with
  | [] => Some (optimized_features, total_coords_before, total_coords_after, h)
  | f :: features' =>
      '(optimized_feature, coords_before, coords_after, h') ←
        optimize_feature simplify_tolerance coord_precision f h;
      optimize_features simplify_tolerance coord_precision features'
        (optimized_features ++ [optimized_feature])
        (total_coords_before + coords_before)
        (total_coords_after + coords_after) h'
  end.

(** [geometry_types[geom_type] = geometry_types.get(geom_type, 0) + 1] on a
    dict kept in insertion order. *)
Fixpoint bump (geom_type : string) (types : list (string * nat))
    : list (string * nat) :=
  match types with
  | [] => [(geom_type, 1)]
  | (k, n) :: types' =>
      if String.eqb k geom_type then (k, n + 1) :: types'
      else (k, n) :: bump geom_type types'
  end.

(** The body of the loop of [analyze_geojson] for the feature at [idx]. *)
Definition analyze_feature h (idx : nat) f (st : stats) : option stats :=
  geom ← feature_geometry f h;
  (* geom.get('type', 'Unknown') *)
  geom_type ← match geom with
              | GNone => None
              | GDict ty _ _ => Some (default "Unknown"%string ty)
              end;
  let types := bump geom_type (geometry_types st) in
  coords ← count_coordinates geom;
  let total := total_coords st + coords in
  let '(max_, max_idx) :=
    if bool_decide (max_coords st < coords) then (coords, idx)
    else (max_coords st, max_coords_idx st) in
  let min_ :=
    if bool_decide (0 < coords)
       && match min_coords st with
          | None => true
          | Some m => bool_decide (coords < m)
          end
    then Some coords else min_coords st in
  Some (Stats total max_ max_idx min_ types).

(** The loop of [analyze_geojson] from index [idx] on. *)
Fixpoint analyze_features h (idx : nat) (features : list (feature A)) (st : stats)
    : option stats :=
  match features with
  | [] => Some st
  | f :: features' =>
      st' ← analyze_feature h idx f st;
      analyze_features h (S idx) features' st'
  end.

(** The statistics [analyze_geojson] has when its loop is over; Python's
    [None] when it returns before the loop because there is no feature. *)
Definition analyze_statistics (features : list (feature A)) h
    : option (option stats) :=
  match features with
  | [] => Some None
  | _ :: _ => Some <$> analyze_features h 0 features (Stats 0 0 0 None [])
  end.
End Passes.

(** [max(items, key=lambda x: x[1])]: the first item of the largest count. *)
Fixpoint max_by_count (best : string * nat) (items : list (string * nat))
    : string * nat :=
  match items with
  | [] => best
  | item :: items' =>
      max_by_count (if bool_decide (best.2 < item.2) then item else best) items'
  end.

(** [primary_type], the dominant geometry type. *)
Definition primary_type (types : list (string * nat)) : string :=
  match types with
  | [] => "Unknown"
  | item :: items => (max_by_count item items).1
  end.

(** ** Vocabulary for the two passes *)

Section PassVocabulary.
Context {num : Type} {A : Type}.
Implicit Types (h : heap num) (f : feature A).

(** What [count_coordinates] gives for the geometry of a feature. *)
Definition feature_count f h : option nat :=
  geom ← feature_geometry f h; count_coordinates geom.

(** The tag under which the analysis files a feature. *)
Definition feature_type f h : option string :=
  geom ← feature_geometry f h;
  match geom with
  | GNone => None
  | GDict ty _ _ => Some (default "Unknown"%string ty)
  end.
End PassVocabulary.

(** How often [t] occurs in [ts]. *)
Definition occurrences (t : string) (ts : list string) : nat :=
  length (filter (λ t', t' = t) ts).

(** The count filed under [t] in a histogram. *)
Fixpoint count_of (t : string) (types : list (string * nat)) : nat :=
  match types with
  | [] => 0
  | (k, n) :: types' => if String.eqb k t then n else count_of t types'
  end.

(** The histogram the analysis loop builds from the tags it meets. *)
Definition histogram (ts : list string) : list (string * nat) :=
  foldl (λ types t, bump t types) [] ts.

(** Every feature that names a geometry names an object of the heap. *)
Definition closed {num A : Type} (features : list (feature A)) (h : heap num) : Prop :=
  Forall (λ f, ∀ l, f_geometry f = Some l → is_Some (h !! l)) features.


(** A feature collection beside its heap: a point, the three-point line and
    a feature without geometry. *)
Module Collection.
Definition objects : heap float :=
  <[1 := Samples.a_line]> {[0 := Samples.a_point]}.
Definition features : list (feature unit) :=
  [Feature (Some 0) tt; Feature (Some 1) tt; Feature None tt].
(** The same with a fourth feature that says ["geometry": null]. *)
Definition objects_null : heap float := <[2 := GNone]> objects.
Definition features_null : list (feature unit) :=
  features ++ [Feature (Some 2) tt].
End Collection.

(** Three points on one line, over binary64. *)
Definition flat_line : list (value float) :=
  [Samples.pt 0 0; Samples.pt 1 1; Samples.pt 2 2].

(** * Properties *)

(** The binary64 instances are the ones the concrete runs below resolve to. *)
Import Binary64.

(** ** Induction principles and basic facts *)

Section ValueFacts.
Context {num : Type}.
Implicit Types (v : value num) (l : list (value num)).

(** Induction that reaches below lists. *)
Lemma value_ind' (P : value num → Prop) :
  P VNone → (∀ x, P (VNum x)) → (∀ l, Forall P l → P (VList l)) → ∀ v, P v.
Proof.
  intros HN HX HL. fix IH 1. intros [| x | l]; [exact HN | exact (HX x) |].
  apply HL. induction l as [| v l IHl]; constructor; [apply IH | exact IHl].
Qed.
End ValueFacts.

Section GeometryFacts.
Context {num : Type}.
Implicit Types (g : geometry num) (v : value num) (co : option (value num))
               (gs : option (list (geometry num))).

Lemma count_unrecognised ty co gs :
  recognised ty = false → count_coordinates (GDict (Some ty) co gs) = Some 0.
Proof.
  unfold recognised. intros Hr%bool_decide_eq_false.
  assert (∀ s, s ∈ ["Point"; "LineString"; "Polygon"; "MultiPolygon";
                    "MultiPoint"; "MultiLineString"; "GeometryCollection"]%string →
               String.eqb ty s = false) as Hne.
  { intros s Hs. apply String.eqb_neq. intros ->. done. }
  simpl. destruct co, gs; simpl;
    rewrite !Hne by (repeat (first [apply list_elem_of_here | apply list_elem_of_further])); done.
Qed.

Lemma count_collection co gs :
  count_coordinates (GDict (Some "GeometryCollection"%string) co gs)
  = sum_of count_coordinates
      (get_geometries (GDict (Some "GeometryCollection"%string) co gs)).
Proof. destruct co, gs; reflexivity. Qed.
End GeometryFacts.

(** ** CoordinateCounter *)

(** C6, as stated, fails: a dict tagged [Point] that has no [coordinates]
    key counts 1, not 0, because the [Point] branch of [count_coordinates]
    returns 1 without reading the payload. *)
Lemma count_point_without_coordinates :
  count_coordinates Samples.bare_point = Some 1
  ∧ count_coordinates Samples.bare_point ≠ Some 0.
Proof. split; [reflexivity | discriminate]. Qed.

(** C6, amended: [count_coordinates] returns 0 for [None], for the empty
    dict, for a dict with no type tag or with a tag that is not one of the
    seven recognised ones, and for a dict whose [coordinates] key is unset
    unless its tag is [Point] or [GeometryCollection]; a [Point] counts 1
    whether or not it has coordinates, and a [GeometryCollection] counts its
    member geometries. *)
Theorem count_coordinates_zero_cases {num : Type} :
  count_coordinates (@GNone num) = Some 0
  ∧ count_coordinates (@GDict num None None None) = Some 0
  ∧ (∀ (co : option (value num)) gs, count_coordinates (GDict None co gs) = Some 0)
  ∧ (∀ ty (co : option (value num)) gs,
       recognised ty = false → count_coordinates (GDict (Some ty) co gs) = Some 0)
  ∧ (∀ ty (gs : option (list (geometry num))),
       ty ≠ "Point"%string → ty ≠ "GeometryCollection"%string →
       count_coordinates (GDict (Some ty) None gs) = Some 0)
  ∧ (∀ (co : option (value num)) gs,
       count_coordinates (GDict (Some "Point"%string) co gs) = Some 1)
  ∧ (∀ (co : option (value num)) gs,
       count_coordinates (GDict (Some "GeometryCollection"%string) co gs)
       = sum_of count_coordinates
           (get_geometries (GDict (Some "GeometryCollection"%string) co gs))).
Proof.
  split_and!.
  - reflexivity.
  - reflexivity.
  - intros [] []; reflexivity.
  - apply count_unrecognised.
  - intros ty gs HP HG.
    apply String.eqb_neq in HP, HG. simpl.
    destruct gs; simpl; rewrite HP; repeat case_match; try reflexivity; congruence.
  - intros [] []; reflexivity.
  - apply count_collection.
Qed.

(** The tag [Circle] is not recognised, so a dict so tagged counts 0. *)
Lemma count_coordinates_zero_cases_witness :
  recognised "Circle" = false
  ∧ count_coordinates (GDict (Some "Circle"%string) (Some (Samples.pt 1 2)) None) = Some 0.
Proof.
  split; [reflexivity |].
  apply (proj1 (proj2 (proj2 (proj2 (@count_coordinates_zero_cases float))))).
  reflexivity.
Defined.

(** ** CoordinateRounder *)

Section ShapeFacts.
Context {num : Type}.
Implicit Types (v c : value num) (l : list (value num)).

Lemma shape_list_inv l v' :
  shape (VList l) = shape v' → ∃ l', v' = VList l' ∧ Forall2 (λ c c', shape c = shape c') l l'.
Proof.
  destruct v' as [| x | l']; simpl; intros [= Heq].
  exists l'. split; [done |].
  apply list_eq_Forall2 in Heq. rewrite Forall2_fmap in Heq. exact Heq.
Qed.

Lemma shape_len v v' : shape v = shape v' → len v = len v'.
Proof.
  destruct v as [| x | l].
  - destruct v'; simpl; done.
  - destruct v'; simpl; done.
  - intros (l' & -> & Hl)%shape_list_inv. simpl. f_equal. by eapply Forall2_length.
Qed.

Lemma shape_is_list v v' : shape v = shape v' → is_list v = is_list v'.
Proof. destruct v, v'; simpl; done. Qed.

Lemma shape_depth v v' : shape v = shape v' → depth v = depth v'.
Proof.
  revert v'. induction v as [| x | l IH] using value_ind'; intros v'.
  - destruct v'; simpl; done.
  - destruct v'; simpl; done.
  - intros (l' & -> & Hl)%shape_list_inv. simpl. f_equal.
    induction Hl as [| c c' l l' Hc Hl IHl]; [done |].
    apply Forall_cons_1 in IH as [IHc IH]. simpl. rewrite (IHc c' Hc). f_equal. by apply IHl.
Qed.

Lemma sum_of_ext {A} (f f' : A → option nat) xs ys :
  Forall2 (λ x y, f x = f' y) xs ys → sum_of f xs = sum_of f' ys.
Proof. intros H. unfold sum_of. f_equal. by apply Forall2_mapM_ext. Qed.

(** [count_coordinates] reads the nesting of the payload only. *)
Lemma count_coordinates_shape ty c c' (gs : option (list (geometry num))) :
  shape c = shape c' →
  count_coordinates (GDict ty (Some c) gs) = count_coordinates (GDict ty (Some c') gs).
Proof.
  intros Hs.
  assert (len c = len c') as Hlen by by apply shape_len.
  assert (∀ (F : list (value num) → option nat),
            (∀ l l', Forall2 (λ c c', shape c = shape c') l l' → F l = F l') →
            items c ≫= F = items c' ≫= F) as Hitems.
  { intros F HF. destruct c as [| x | l].
    - destruct c'; simpl in *; done.
    - destruct c'; simpl in *; done.
    - apply shape_list_inv in Hs as (l' & -> & Hl). simpl. by apply HF. }
  assert (∀ l l' : list (value num),
            Forall2 (λ c c', shape c = shape c') l l' → sum_of len l = sum_of len l') as Hsum.
  { intros l l' Hl. apply sum_of_ext. eapply List.Forall2_impl; [| exact Hl].
    intros ???. by apply shape_len. }
  unfold count_coordinates; simpl.
  destruct gs as [ms |]; simpl; repeat case_match; try done.
  all: try (apply Hitems; intros l l' Hl).
  all: try by apply Hsum.
  - apply sum_of_ext. eapply List.Forall2_impl; [| exact Hl]. intros p p' Hp.
    simpl. destruct p as [| x | rs].
    + destruct p'; simpl in *; done.
    + destruct p'; simpl in *; done.
    + apply shape_list_inv in Hp as (rs' & -> & Hrs). simpl. by apply Hsum.
  - apply sum_of_ext. eapply List.Forall2_impl; [| exact Hl]. intros p p' Hp.
    simpl. rewrite (shape_is_list _ _ Hp), (shape_len _ _ Hp). done.
  - apply sum_of_ext. eapply List.Forall2_impl; [| exact Hl]. intros p p' Hp.
    simpl. destruct p as [| x | rs].
    + destruct p'; simpl in *; done.
    + destruct p'; simpl in *; done.
    + apply shape_list_inv in Hp as (rs' & -> & Hrs). simpl. by apply Hsum.
  - apply sum_of_ext. eapply List.Forall2_impl; [| exact Hl]. intros p p' Hp.
    simpl. rewrite (shape_is_list _ _ Hp), (shape_len _ _ Hp). done.
Qed.
End ShapeFacts.

Section RounderFacts.
Context {num : Type} `{!Arith num, !Rounding num}.
Implicit Types (g : geometry num) (v c : value num) (l : list (value num))
               (h : heap num) (p : Z).

(** The element expression of the comprehension in [round_coord] is
    [round_coord] itself: the test on numbers is made twice. *)
Lemma round_coord_element p c :
  match c with
  | VNum x => VNum <$> py_round x p
  | _ => round_coord p c
  end = round_coord p c.
Proof. by destruct c. Qed.

Lemma round_coord_list p l :
  round_coord p (VList l) = VList <$> mapM (round_coord p) l.
Proof. simpl. f_equal. apply mapM_ext, round_coord_element. Qed.

Lemma round_coord_shape p v v' : round_coord p v = Some v' → shape v' = shape v.
Proof.
  revert v'. induction v as [| x | l IH] using value_ind'; intros v'.
  - by intros [= <-].
  - simpl. destruct (py_round x p); intros [= <-]; done.
  - rewrite round_coord_list. destruct (mapM _ l) as [l' |] eqn:Hm; intros [= <-].
    simpl. f_equal. apply mapM_Some_1 in Hm.
    induction Hm as [| c c' l l' Hc Hm IHm]; [done |].
    apply Forall_cons_1 in IH as [IHc IH]. simpl. f_equal; [by apply IHc | by apply IHm].
Qed.

Lemma round_coord_is_Some p v :
  Forall (λ x, is_Some (py_round x p)) (leaves v) → is_Some (round_coord p v).
Proof.
  induction v as [| x | l IH] using value_ind'; intros Hv.
  - by eexists.
  - simpl in *. apply Forall_cons_1 in Hv as [[y ->] _]. by eexists.
  - rewrite round_coord_list. apply fmap_is_Some, mapM_is_Some.
    simpl in Hv. apply Forall_concat in Hv. rewrite Forall_fmap in Hv.
    induction l as [| c l IHl]; [done |].
    apply Forall_cons_1 in IH as [IHc IH]. apply Forall_cons_1 in Hv as [Hc Hv].
    constructor; [by apply IHc | by apply IHl].
Qed.


(** The two ways [round_coordinates] returns. *)
Lemma round_coordinates_cases h r p g :
  h !! r = Some g →
  (round_coordinates r p h = Some (r, h)
   ∧ (falsy g = true ∨ truthy (get_coordinates g VNone) = false))
  ∨ (∃ ty c gs, g = GDict ty (Some c) gs ∧ truthy c = true
     ∧ round_coordinates r p h
       = (rounded ← round_coord p c; Some (r, <[r := GDict ty (Some rounded) gs]> h))).
Proof.
  intros Hg. unfold round_coordinates. rewrite Hg. simpl.
  destruct (falsy g) eqn:Hf; [left; auto |].
  destruct (truthy (get_coordinates g VNone)) eqn:Ht; simpl; [| left; auto].
  right. destruct g as [| ty [c |] gs]; try done. by exists ty, c, gs.
Qed.

(** C8: rounding keeps the shape.  Whenever rounding each number of [g]
    raises nothing, [round_coordinates] returns the record it was given,
    whose payload has the nesting depth it had and whose coordinate count
    is the one it had. *)
Theorem round_preserves_shape h r p g :
  h !! r = Some g →
  Forall (λ x, is_Some (py_round x p)) (leaves (get_coordinates g VNone)) →
  ∃ g', round_coordinates r p h = Some (r, <[r := g']> h)
        ∧ depth (get_coordinates g' VNone) = depth (get_coordinates g VNone)
        ∧ count_coordinates g' = count_coordinates g.
Proof.
  intros Hg Hr.
  destruct (round_coordinates_cases h r p g Hg) as [[-> _] | (ty & c & gs & -> & Ht & ->)].
  - exists g. by rewrite insert_id.
  - simpl in Hr. destruct (round_coord_is_Some p c Hr) as [c' Hc'].
    rewrite Hc'. simpl. exists (GDict ty (Some c') gs).
    apply round_coord_shape in Hc'.
    split_and!; [done | by apply shape_depth | by apply count_coordinates_shape].
Qed.

End RounderFacts.

(** ** LineSimplifier *)

Section SimplifierFacts.
Context {num : Type} `{!Arith num}.
Implicit Types (g : geometry num) (v c : value num) (h : heap num)
               (points out : list (value num)) (tol : num).



Lemma farthest_index points e range i0 d0 i d :
  farthest points e range i0 d0 = Some (i, d) → (i = i0 ∧ d = d0) ∨ i ∈ range.
Proof.
  revert i0 d0. induction range as [| j range IH]; intros i0 d0; simpl.
  - intros [= <- <-]. by left.
  - destruct (points !! j) as [p |]; simpl; [| done].
    destruct (points !! 0) as [a |]; simpl; [| done].
    destruct (points !! e) as [b |]; simpl; [| done].
    destruct (perpendicular_distance p a b) as [dj |]; simpl; [| done].
    destruct (gt dj d0); intros [[-> ->] | Hin]%IH;
      first [by left | right; by constructor].
Qed.


(** The pivot lies strictly before the last index; it is an interior index
    unless no distance exceeded the initial [dmax = 0]. *)
Lemma farthest_pivot points index dmax :
  3 ≤ length points →
  farthest points (length points - 1) (seq 1 (length points - 1 - 1)) 0 zero
    = Some (index, dmax) →
  index < length points - 1 ∧ (index = 0 → dmax = zero).
Proof.
  intros Hlen [[-> ->] | Hin]%farthest_index; [split; [lia | done] |].
  apply elem_of_seq in Hin. lia.
Qed.

Lemma last_drop points i : i < length points → last (drop i points) = last points.
Proof.
  intros Hi. rewrite !last_lookup, lookup_drop, length_drop. f_equal. lia.
Qed.

(** Whatever [douglas_peucker] returns is a subsequence of its input that
    starts and ends where the input does. *)
Lemma douglas_peucker_keeps_ends fuel points tol out :
  douglas_peucker fuel points tol = Some out → keeps_ends points out.
Proof.
  revert points out. induction fuel as [| fuel IH]; intros points out; simpl.
  { case_bool_decide; intros [= <-]. by split. }
  case_bool_decide as Hlen; [intros [= <-]; by split |].
  destruct (farthest _ _ _ _ _) as [[index dmax] |] eqn:Hf; simpl; [| done].
  apply farthest_pivot in Hf as [Hidx _]; [| lia].
  destruct (lookup_lt_is_Some_2 points index) as [x Hx]; [lia |].
  destruct (gt dmax tol).
  - destruct (douglas_peucker fuel (take _ _) tol) as [rec1 |] eqn:H1; simpl; [| done].
    destruct (douglas_peucker fuel (drop _ _) tol) as [rec2 |] eqn:H2; simpl; [| done].
    intros [= <-].
    apply IH in H1 as (Hs1 & Hh1 & Hl1), H2 as (Hs2 & Hh2 & Hl2).
    rewrite Nat.add_1_r, (take_S_r _ _ _ Hx) in Hs1, Hh1, Hl1.
    rewrite last_snoc in Hl1. apply last_Some in Hl1 as [r ->].
    rewrite length_app, Nat.add_sub, take_app_length. simpl.
    apply sublist_app_inv_r in Hs1.
    rewrite last_drop in Hl2 by lia.
    rewrite (head_lookup (drop _ _)), lookup_drop, Nat.add_0_r, Hx in Hh2.
    assert (head (take index points ++ [x]) = head points) as Hhp.
    { rewrite <- (take_S_r _ _ _ Hx), !head_lookup. apply lookup_take_lt. lia. }
    rewrite Hhp in Hh1.
    split_and!.
    + rewrite <- (take_drop index points). by apply sublist_app.
    + destruct r as [| y r]; simpl in *; congruence.
    + rewrite last_app, Hl2. destruct (last points) eqn:Hlast; [done |].
      apply eq_None_not_Some in Hlast. destruct Hlast. apply last_is_Some.
      intros ->. simpl in *. lia.
  - destruct (points !! 0) as [a |] eqn:Ha; simpl; [| done].
    destruct (points !! (length points - 1)) as [b |] eqn:Hb; simpl; [| done].
    intros [= <-].
    destruct points as [| a' points]; [done |]. simpl in Ha. injection Ha as ->.
    assert (last points = Some b) as [mid ->]%last_Some.
    { rewrite last_lookup. simpl in Hb, Hlen. rewrite Nat.sub_0_r in Hb.
      destruct points as [| ? points]; simpl in *; [lia |]. done. }
    split_and!.
    + constructor. apply sublist_inserts_l. done.
    + done.
    + rewrite app_comm_cons, last_snoc. done.
Qed.


Lemma simplify_line_keeps_ends v tol v' :
  simplify_line v tol = Some v' →
  ∃ points out, v = VList points ∧ v' = VList out ∧ keeps_ends points out.
Proof.
  destruct v as [| x | points]; try done. unfold simplify_line. simpl.
  case_bool_decide.
  - intros [= <-]. by exists points, points.
  - destruct (douglas_peucker _ _ _) as [out |] eqn:Hdp; intros [= <-].
    exists points, out. eauto using douglas_peucker_keeps_ends.
Qed.


End SimplifierFacts.


(** ** GeometrySimplifier *)

Section DispatchFacts.
Context {num : Type} `{!Arith num}.
Implicit Types (g : geometry num) (v c line : value num) (h : heap num)
               (points out : list (value num)) (tol : num) (r : loc)
               (co : option (value num)) (ms : option (list (geometry num))).

(** *** The dispatch, tag by tag *)

Lemma simplify_geometry_LineString h r co ms tol :
  h !! r = Some (GDict (Some "LineString"%string) co ms) →
  simplify_geometry r tol h =
    (simplified ← simplify_line (default (VList []) co) tol;
     n ← len simplified;
     if bool_decide (2 ≤ n)
     then Some (r, <[r := GDict (Some "LineString"%string) (Some simplified) ms]> h)
     else Some (r, h)).
Proof. intros Hg. unfold simplify_geometry. rewrite Hg. by destruct co, ms. Qed.

Lemma simplify_geometry_MultiLineString h r co ms tol :
  h !! r = Some (GDict (Some "MultiLineString"%string) co ms) →
  simplify_geometry r tol h =
    (lines ← items (default (VList []) co);
     simplified_coords ← mapM (simplify_or_keep 2 tol) lines;
     Some (r, <[r := GDict (Some "MultiLineString"%string)
                        (Some (VList simplified_coords)) ms]> h)).
Proof. intros Hg. unfold simplify_geometry. rewrite Hg. by destruct co, ms. Qed.

Lemma simplify_geometry_Polygon h r co ms tol :
  h !! r = Some (GDict (Some "Polygon"%string) co ms) →
  simplify_geometry r tol h =
    (rings ← items (default (VList []) co);
     simplified_coords ← mapM (simplify_or_keep 4 tol) rings;
     Some (r, <[r := GDict (Some "Polygon"%string)
                        (Some (VList simplified_coords)) ms]> h)).
Proof. intros Hg. unfold simplify_geometry. rewrite Hg. by destruct co, ms. Qed.

Lemma simplify_geometry_MultiPolygon h r co ms tol :
  h !! r = Some (GDict (Some "MultiPolygon"%string) co ms) →
  simplify_geometry r tol h =
    (polygons ← items (default (VList []) co);
     simplified_polygons ←
       mapM (λ polygon, rings ← items polygon;
                        mapM (simplify_or_keep 4 tol) rings) polygons;
     Some (r, <[r := GDict (Some "MultiPolygon"%string)
                        (Some (VList (VList <$> filter (λ p, nonempty p) simplified_polygons)))
                        ms]> h)).
Proof. intros Hg. unfold simplify_geometry. rewrite Hg. by destruct co, ms. Qed.

(** Every other geometry is returned as it is. *)
Lemma simplify_geometry_other h r g tol :
  h !! r = Some g →
  get_type g ∉ ["LineString"; "MultiLineString"; "Polygon"; "MultiPolygon"]%string →
  simplify_geometry r tol h = Some (r, h).
Proof.
  intros Hg Hty. unfold simplify_geometry. rewrite Hg. simpl.
  destruct (falsy g); [done |].
  destruct (_ || _); [done |].
  repeat match goal with
  | |- context [String.eqb (get_type g) ?t] =>
      destruct (String.eqb_spec (get_type g) t) as [Heq |];
      [exfalso; apply Hty; rewrite Heq;
       repeat first [apply list_elem_of_here | apply list_elem_of_further] |]
  end.
  done.
Qed.

(** *** The ring loop *)

Lemma simplify_or_keep_spec k tol line line' :
  simplify_or_keep k tol line = Some line' →
  ring_rule k tol line line' ∧ no_longer line' line.
Proof.
  unfold simplify_or_keep.
  destruct (simplify_line line tol) as [s |] eqn:Hs; simpl; [| done].
  destruct (simplify_line_keeps_ends _ _ _ Hs) as (ps & out & -> & -> & Hsub & _).
  simpl. intros [= <-]. split.
  - by exists out.
  - case_bool_decide; [exists out, ps | exists ps, ps]; split_and!; try done.
    by apply sublist_length.
Qed.



(** *** Counting before and after *)

Lemma sum_of_cons {A} (f : A → option nat) x xs :
  sum_of f (x :: xs) = (n ← f x; s ← sum_of f xs; Some (n + s)).
Proof.
  unfold sum_of. simpl. destruct (f x); simpl; [| done]. by destruct (mapM f xs).
Qed.

Lemma sum_of_no_longer (f : value num → option nat) lines lines' :
  (∀ ps, f (VList ps) = Some (length ps)) →
  Forall2 (λ line line', no_longer line' line) lines lines' →
  ∃ n n', sum_of f lines = Some n ∧ sum_of f lines' = Some n' ∧ n' ≤ n.
Proof.
  intros Hf.
  induction 1 as [| ? ? ls ls' (ps' & ps & -> & -> & Hle) _ (n & n' & Hn & Hn' & Hnn)].
  - by exists 0, 0.
  - exists (length ps + n), (length ps' + n').
    rewrite !sum_of_cons, !Hf, Hn, Hn'. simpl. split_and!; [done | done | lia].
Qed.

Lemma count_LineString co ms :
  count_coordinates (GDict (Some "LineString"%string) co ms) = len (default (VList []) co).
Proof. by destruct co, ms. Qed.

Lemma count_MultiLineString co ms :
  count_coordinates (GDict (Some "MultiLineString"%string) co ms)
  = (parts ← items (default (VList []) co);
     sum_of (λ part, if is_list part then len part else Some 1) parts).
Proof. by destruct co, ms. Qed.

Lemma count_Polygon co ms :
  count_coordinates (GDict (Some "Polygon"%string) co ms)
  = (rings ← items (default (VList []) co); sum_of len rings).
Proof. by destruct co, ms. Qed.

Lemma count_MultiPolygon co ms :
  count_coordinates (GDict (Some "MultiPolygon"%string) co ms)
  = (polygons ← items (default (VList []) co);
     sum_of (λ polygon, rings ← items polygon; sum_of len rings) polygons).
Proof. by destruct co, ms. Qed.

Lemma get_type_inv g t :
  get_type g = t → t ≠ ""%string → ∃ co ms, g = GDict (Some t) co ms.
Proof. destruct g as [| [t' |] co ms]; simpl; intros <- ?; try done. by exists co, ms. Qed.

(** Dropping the polygons left without rings takes nothing off the count. *)
Lemma sum_of_polygons polygons (simplified : list (list (value num))) :
  Forall2 (λ polygon rings', ∃ rings, polygon = VList rings
             ∧ Forall2 (λ line line', no_longer line' line) rings rings')
          polygons simplified →
  ∃ n n',
    sum_of (λ polygon, rings ← items polygon; sum_of len rings) polygons = Some n
    ∧ sum_of (λ polygon, rings ← items polygon; sum_of len rings)
             (VList <$> filter (λ p, nonempty p) simplified) = Some n'
    ∧ n' ≤ n.
Proof.
  induction 1 as [| ? rings' ps ss (rings & -> & Hrings) _ (n & n' & Hn & Hn' & Hnn)].
  - by exists 0, 0.
  - destruct (sum_of_no_longer len rings rings') as (k & k' & Hk & Hk' & Hkk);
      [done | done |].
    rewrite sum_of_cons, Hn. simpl. rewrite Hk. simpl.
    rewrite filter_cons. destruct (decide (nonempty rings')) as [Hne | Hemp].
    + exists (k + n), (k' + n'). rewrite fmap_cons, sum_of_cons, Hn'. simpl.
      rewrite Hk'. simpl. split_and!; [done | done | lia].
    + exists (k + n), n'. split_and!; [done | done | lia].
Qed.



(** *** Multi-polygons *)



End DispatchFacts.



(** ** What the two writers do to the heap *)

Section WriterFacts.
Context {num : Type} `{!Arith num, !Rounding num}.
Implicit Types (g : geometry num) (h : heap num) (tol : num) (r : loc) (p : Z)
               (ms : option (list (geometry num))).

Lemma simplify_geometry_writes h r tol r' h' :
  simplify_geometry r tol h = Some (r', h') →
  r' = r ∧ ∃ g, h !! r = Some g ∧ (h' = h ∨ ∃ c, h' = <[r := set_coordinates g c]> h).
Proof.
  destruct (h !! r) as [g |] eqn:Hg; [| unfold simplify_geometry; by rewrite Hg].
  destruct (decide (get_type g ∈ ["LineString"; "MultiLineString"; "Polygon"; "MultiPolygon"]%string))
    as [Hin | Hout]; cycle 1.
  { rewrite (simplify_geometry_other _ _ _ _ Hg Hout). intros [= <- <-]. eauto. }
  repeat (apply elem_of_cons in Hin as [Hty | Hin]);
    [.. | by apply elem_of_nil in Hin];
    destruct (get_type_inv g _ Hty) as (co & ms & ->); try done.
  - rewrite (simplify_geometry_LineString _ _ _ _ _ Hg).
    destruct (simplify_line _ _) as [s |]; simpl; [| done].
    destruct (len s); simpl; [| done].
    case_bool_decide; intros [= <- <-]; eauto 6.
  - rewrite (simplify_geometry_MultiLineString _ _ _ _ _ Hg).
    destruct (items _) as [lines |]; simpl; [| done].
    destruct (mapM _ lines); simpl; [| done]. intros [= <- <-]. eauto 6.
  - rewrite (simplify_geometry_Polygon _ _ _ _ _ Hg).
    destruct (items _) as [lines |]; simpl; [| done].
    destruct (mapM _ lines); simpl; [| done]. intros [= <- <-]. eauto 6.
  - rewrite (simplify_geometry_MultiPolygon _ _ _ _ _ Hg).
    destruct (items _) as [polygons |]; simpl; [| done].
    destruct (mapM _ polygons); simpl; [| done]. intros [= <- <-]. eauto 6.
Qed.

Lemma round_coordinates_writes h r p r' h' :
  round_coordinates r p h = Some (r', h') →
  r' = r ∧ ∃ g, h !! r = Some g ∧ (h' = h ∨ ∃ c, h' = <[r := set_coordinates g c]> h).
Proof.
  destruct (h !! r) as [g |] eqn:Hg; [| unfold round_coordinates; by rewrite Hg].
  destruct (round_coordinates_cases h r p g Hg) as [[-> _] | (ty & c & ms & -> & _ & ->)].
  - intros [= <- <-]. eauto.
  - destruct (round_coord p c) as [c' |]; simpl; [| done]. intros [= <- <-]. eauto 6.
Qed.


(** C10: a GeometryCollection comes back from [simplify_geometry] with the
    heap unchanged; it comes back from [round_coordinates] with its member
    geometries as they were, and with the heap unchanged when, as a
    collection does, it holds its members under [geometries] and has no
    [coordinates] of its own.  [count_coordinates] meanwhile adds up the
    counts of the members. *)
Theorem geometry_collection_untouched h r co ms tol p :
  h !! r = Some (GDict (Some "GeometryCollection"%string) co ms) →
  simplify_geometry r tol h = Some (r, h)
  ∧ (co = None → round_coordinates r p h = Some (r, h))
  ∧ (∀ r' h', round_coordinates r p h = Some (r', h') →
       ∃ co', h' !! r' = Some (GDict (Some "GeometryCollection"%string) co' ms))
  ∧ count_coordinates (GDict (Some "GeometryCollection"%string) co ms)
    = sum_of count_coordinates
        (get_geometries (GDict (Some "GeometryCollection"%string) co ms)).
Proof.
  intros Hg. split_and!.
  - apply (simplify_geometry_other _ _ _ _ Hg). simpl.
    intros Hin. repeat (apply elem_of_cons in Hin as [? | Hin]; [done |]).
    by apply elem_of_nil in Hin.
  - intros ->. unfold round_coordinates. by rewrite Hg.
  - intros r' h' (-> & g & Hg' & [-> | (c & ->)])%round_coordinates_writes;
      rewrite Hg in Hg'; injection Hg' as <-.
    + eauto.
    + rewrite lookup_insert_eq. simpl. eauto.
  - apply count_collection.
Qed.
End WriterFacts.



(** Scenario 5: a collection of a point and a three-point line counts
    1 + 3, and neither writer touches it. *)
Lemma geometry_collection_untouched_witness :
  simplify_geometry 0 0.001%float {[0 := Samples.a_collection]}
  = Some (0, {[0 := Samples.a_collection]})
  ∧ round_coordinates 0 4 {[0 := Samples.a_collection]}
    = Some (0, {[0 := Samples.a_collection]})
  ∧ count_coordinates Samples.a_collection = Some (1 + 3).
Proof.
  destruct (geometry_collection_untouched {[0 := Samples.a_collection]} 0 None
              (Some [Samples.a_point; Samples.a_line]) 0.001%float 4)
    as (Hs & Hr & _ & Hc); [reflexivity |].
  split_and!; [exact Hs | by apply Hr |]. etrans; [exact Hc | reflexivity].
Defined.


(** ** Scenario 1 *)

(** C4: on the line [[0,0],[1,0.00001],[2,0],[3,10],[4,0]] with tolerance
    0.001, [simplify_line] returns [[0,0],[2,0],[3,10],[4,0]]; the first
    pivot the scan finds is index 3, at distance 10. *)
Theorem scenario_1_line :
  simplify_line Samples.scenario1_line 0.001%float
  = Some (VList [Samples.pt 0 0; Samples.pt 2 0; Samples.pt 3 10; Samples.pt 4 0])
  ∧ farthest [Samples.pt 0 0; Samples.pt 1 0.00001; Samples.pt 2 0;
              Samples.pt 3 10; Samples.pt 4 0] 4 (seq 1 3) 0 zero
    = Some (3, 10%float).
Proof. split; vm_compute; reflexivity. Qed.

(** ** The properties on sample geometries *)


(** Scenario 2: the point [[12.3456789, -45.6789012]] rounded to 4 places. *)
Lemma round_preserves_shape_witness :
  ∃ g', round_coordinates 0 4 {[0 := Samples.a_point]}
        = Some (0, <[0 := g']> {[0 := Samples.a_point]})
        ∧ depth (get_coordinates g' VNone) = 1
        ∧ count_coordinates g' = Some 1.
Proof.
  apply (round_preserves_shape {[0 := Samples.a_point]} 0 4 Samples.a_point).
  - reflexivity.
  - repeat constructor; vm_compute; eauto.
Defined.


(** ** Zero tolerance, over the reals *)

Section ZeroTolerance.
Import Real.
Local Open Scope R_scope.
Implicit Types (p a b c : R * R) (pts : list (R * R)).














End ZeroTolerance.

(** * Further properties of the code *)

(** ** Feature names *)

Section FeatureNameFacts.
Implicit Types (d : gmap string prop) (fields : list string).

Lemma scan_fields_cons field fields d :
  scan_fields (field :: fields) d
  = match usable_name d field with Some s => Some s | None => scan_fields fields d end.
Proof. unfold usable_name. simpl. destruct (d !! field) as [v |]; [| done]. by destruct (prop_truthy v). Qed.

Lemma scan_fields_Some fields d s :
  scan_fields fields d = Some s ↔
  ∃ i field, fields !! i = Some field ∧ usable_name d field = Some s
             ∧ ∀ j field', j < i → fields !! j = Some field' → usable_name d field' = None.
Proof.
  induction fields as [| f fields IH].
  - split; [done |]. by intros (i & field & Hi & _).
  - rewrite scan_fields_cons. destruct (usable_name d f) as [s' |] eqn:Hf.
    + split.
      * intros [= ->]. exists 0, f. split_and!; [done | done | lia].
      * intros (i & field & Hi & Hu & Hbefore). destruct i as [| i].
        -- simpl in Hi. injection Hi as <-. congruence.
        -- specialize (Hbefore 0 f ltac:(lia) eq_refl). congruence.
    + rewrite IH. split.
      * intros (i & field & Hi & Hu & Hbefore). exists (S i), field.
        split_and!; [done | done |]. intros [| j] field' Hj Hf'.
        -- simpl in Hf'. by injection Hf' as <-.
        -- apply (Hbefore j); [lia | done].
      * intros (i & field & Hi & Hu & Hbefore). destruct i as [| i].
        -- simpl in Hi. injection Hi as <-. congruence.
        -- exists i, field. split_and!; [done | done |]. intros j field' Hj Hf'.
           apply (Hbefore (S j)); [lia | done].
Qed.

Lemma scan_fields_None fields d :
  scan_fields fields d = None ↔ ∀ field, field ∈ fields → usable_name d field = None.
Proof.
  induction fields as [| f fields IH].
  - split; [| done]. intros _ field Hin. by apply elem_of_nil in Hin.
  - rewrite scan_fields_cons. destruct (usable_name d f) as [s' |] eqn:Hf.
    + split; [done |]. intros H. specialize (H f ltac:(left)). congruence.
    + rewrite IH. split.
      * intros H field [-> | Hin]%elem_of_cons; auto.
      * intros H field Hin. apply H. by right.
Qed.

Lemma scan_fields_ext fields d d' :
  (∀ field, field ∈ fields → usable_name d field = usable_name d' field) →
  scan_fields fields d = scan_fields fields d'.
Proof.
  induction fields as [| f fields IH]; intros H; [done |].
  rewrite !scan_fields_cons, <- (H f) by left.
  destruct (usable_name d f); [done |]. apply IH. intros field Hin. apply H. by right.
Qed.

(** [get_feature_name] returns the string of the first of the fourteen
    fields, in their fixed order, that is present with a value that counts
    as true, and Python's [None] exactly when no field is. *)
Theorem get_feature_name_first_match d :
  (∀ s, get_feature_name (Some d) = Some (Some s) ↔
        ∃ i field v, name_fields !! i = Some field ∧ d !! field = Some v
                     ∧ prop_truthy v = true ∧ s = prop_str v
                     ∧ ∀ j field' v', j < i → name_fields !! j = Some field' →
                                      d !! field' = Some v' → prop_truthy v' = false)
  ∧ (get_feature_name (Some d) = Some None ↔
     ∀ field v, field ∈ name_fields → d !! field = Some v → prop_truthy v = false).
Proof.
  unfold get_feature_name. split.
  - intros s. split.
    + intros H. assert (scan_fields name_fields d = Some s) as Hs by congruence.
      clear H. apply scan_fields_Some in Hs as (i & field & Hi & Hu & Hbefore).
      unfold usable_name in Hu. destruct (d !! field) as [v |] eqn:Hv; [| done].
      destruct (prop_truthy v) eqn:Ht; [| done]. injection Hu as <-.
      exists i, field, v. split_and!; try done.
      intros j field' v' Hj Hf' Hv'. specialize (Hbefore j field' Hj Hf').
      unfold usable_name in Hbefore. rewrite Hv' in Hbefore. by destruct (prop_truthy v').
    + intros (i & field & v & Hi & Hv & Ht & -> & Hbefore). f_equal.
      apply scan_fields_Some. exists i, field. split_and!; [done | |].
      * unfold usable_name. by rewrite Hv, Ht.
      * intros j field' Hj Hf'. unfold usable_name.
        destruct (d !! field') as [v' |] eqn:Hv'; [| done].
        by rewrite (Hbefore j field' v' Hj Hf' Hv').
  - split.
    + intros H. assert (scan_fields name_fields d = None) as Hnone by congruence.
      clear H. intros field v Hin Hv.
      pose proof (proj1 (scan_fields_None _ _) Hnone field Hin) as Hu.
      unfold usable_name in Hu. rewrite Hv in Hu. by destruct (prop_truthy v).
    + intros H. f_equal. apply scan_fields_None. intros field Hin. unfold usable_name.
      destruct (d !! field) as [v |] eqn:Hv; [| done]. by rewrite (H field v Hin Hv).
Qed.

(** A field whose value counts as false (an empty name, an id of 0, a
    [false], a [null]) is passed over as if the field were absent. *)
Theorem get_feature_name_skips_falsy d (field : string) v :
  prop_truthy v = false →
  get_feature_name (Some (<[field := v]> d)) = get_feature_name (Some (delete field d)).
Proof.
  intros Hv. unfold get_feature_name. f_equal. apply scan_fields_ext.
  intros f _. unfold usable_name. destruct (decide (f = field)) as [-> | Hne].
  - by rewrite lookup_insert_eq, lookup_delete_eq, Hv.
  - by rewrite lookup_insert_ne, lookup_delete_ne.
Qed.

(** A key that is not one of the fourteen fields has no say in the name. *)
Theorem get_feature_name_other_keys d (key : string) v :
  key ∉ name_fields →
  get_feature_name (Some (<[key := v]> d)) = get_feature_name (Some d).
Proof.
  intros Hk. unfold get_feature_name. f_equal. apply scan_fields_ext.
  intros f Hf. unfold usable_name. rewrite lookup_insert_ne; [done |]. by intros ->.
Qed.
End FeatureNameFacts.

(** An [ID] of 0 is passed over, and the name is taken from [id]. *)
Lemma get_feature_name_skips_falsy_witness :
  get_feature_name (Some (<["ID"%string := PInt 0]> {["id"%string := PInt (-42)]}))
  = Some (Some "-42"%string).
Proof.
  rewrite (get_feature_name_skips_falsy {["id"%string := PInt (-42)]} "ID" (PInt 0)).
  - reflexivity.
  - reflexivity.
Defined.

(** A [population] key beside a [NAME]. *)
Lemma get_feature_name_other_keys_witness :
  get_feature_name (Some (<["population"%string := PInt 7]> {["NAME"%string := PStr "Shelby"]}))
  = Some (Some "Shelby"%string).
Proof.
  rewrite (get_feature_name_other_keys {["NAME"%string := PStr "Shelby"]} "population" (PInt 7)).
  - reflexivity.
  - vm_compute. intros H. repeat (apply elem_of_cons in H as [H | H]; [discriminate |]).
    by apply elem_of_nil in H.
Defined.

Section FeatureNameStrings.
Implicit Types (d : gmap string prop) (v : prop) (s : string).

Lemma pretty_N_go_nonempty (x : N) s : s ≠ ""%string → pretty_N_go x s ≠ ""%string.
Proof.
  revert s. induction (N.lt_wf_0 x) as [x _ IH]; intros s Hs.
  assert (x = 0 ∨ 0 < x)%N as [-> | Hpos] by lia.
  - by rewrite pretty_N_go_0.
  - rewrite pretty_N_go_step by done. apply IH; [by apply N.div_lt | done].
Qed.

(** [str] of a value that counts as true is not the empty string. *)
Lemma prop_str_nonempty v : prop_truthy v = true → prop_str v ≠ ""%string.
Proof.
  destruct v as [| [|] | z | s]; simpl; try done.
  - intros Hz. destruct z as [| x | x]; [done | | done].
    unfold pretty, pretty_Z, pretty, pretty_positive, pretty, pretty_N.
    case_decide; [done |]. rewrite pretty_N_go_step by lia.
    by apply pretty_N_go_nonempty.
  - intros Hs ->. done.
Qed.

(** A name [get_feature_name] returns is never the empty string, so
    [get_feature_name(...) or fallback] falls back only on [None]. *)
Theorem get_feature_name_never_empty d s :
  get_feature_name (Some d) = Some (Some s) → s ≠ ""%string.
Proof.
  unfold get_feature_name. intros H.
  assert (scan_fields name_fields d = Some s) as Hs by congruence. clear H.
  apply scan_fields_Some in Hs as (i & field & _ & Hu & _).
  unfold usable_name in Hu. destruct (d !! field) as [v |]; [| done].
  destruct (prop_truthy v) eqn:Ht; [| done]. injection Hu as <-.
  by apply prop_str_nonempty.
Qed.
End FeatureNameStrings.

(** An [id] of -42. *)
Lemma get_feature_name_never_empty_witness :
  get_feature_name (Some {["id"%string := PInt (-42)]}) = Some (Some "-42"%string)
  ∧ "-42"%string ≠ ""%string.
Proof.
  split; [reflexivity |].
  apply (get_feature_name_never_empty {["id"%string := PInt (-42)]}). reflexivity.
Defined.

(** ** The sample coordinate under simplification *)

Section FirstCoordinateFacts.
Context {num : Type} `{!Arith num}.
Implicit Types (g : geometry num) (v line : value num) (h : heap num)
               (tol : num) (r : loc) (co : option (value num))
               (ms : option (list (geometry num))).

(** The ring loop, read from a run that returned. *)
Lemma mapM_simplify_or_keep_inv k tol (lines lines' : list (value num)) :
  mapM (simplify_or_keep k tol) lines = Some lines' →
  Forall2 (ring_rule k tol) lines lines'
  ∧ Forall2 (λ line line', no_longer line' line) lines lines'.
Proof.
  intros Hm%mapM_Some_1.
  induction Hm as [| line line' ls ls' Hl _ [IH1 IH2]]; [done |].
  apply simplify_or_keep_spec in Hl as [??]. split; by constructor.
Qed.

(** What the loop appends for a line starts where the line starts, and is
    empty only if the line is. *)
Lemma ring_rule_first k tol line line' :
  1 ≤ k → ring_rule k tol line line' →
  truthy line' = truthy line ∧ item_at line' 0 = item_at line 0.
Proof.
  intros Hk (out & Hout & ->).
  destruct (simplify_line_keeps_ends _ _ _ Hout) as (ps & out' & -> & [= <-] & _ & Hhead & _).
  case_bool_decide as Hlen; [| done].
  destruct out as [| p out]; [simpl in Hlen; lia |].
  destruct ps as [| p' ps]; [done |]. simpl in Hhead. injection Hhead as ->. done.
Qed.

Lemma simplify_line_first v tol (out : list (value num)) :
  simplify_line v tol = Some (VList out) → 1 ≤ length out →
  truthy v = true ∧ item_at v 0 = out !! 0.
Proof.
  intros Hs Hlen.
  destruct (simplify_line_keeps_ends _ _ _ Hs) as (ps & out' & -> & [= <-] & _ & Hhead & _).
  destruct out as [| p out]; [simpl in Hlen; lia |].
  destruct ps as [| p' ps]; [done |]. simpl in Hhead. injection Hhead as ->. done.
Qed.

(** For every geometry but a MultiPolygon, what [get_first_coordinate]
    returns for the record is the same after [simplify_geometry] as
    before. *)
Theorem simplify_keeps_first_coordinate h r g tol r' h' g' :
  h !! r = Some g → get_type g ≠ "MultiPolygon"%string →
  simplify_geometry r tol h = Some (r', h') → h' !! r' = Some g' →
  get_first_coordinate g' = get_first_coordinate g.
Proof.
  intros Hg Hnot Hs Hg'.
  destruct (decide (get_type g ∈ ["LineString"; "MultiLineString"; "Polygon"; "MultiPolygon"]%string))
    as [Hin | Hout]; cycle 1.
  { rewrite (simplify_geometry_other _ _ _ _ Hg Hout) in Hs. injection Hs as <- <-. congruence. }
  repeat (apply elem_of_cons in Hin as [Hty | Hin]);
    [.. | by apply elem_of_nil in Hin];
    destruct (get_type_inv g _ Hty) as (co & ms & ->); try done.
  - (* LineString *)
    rewrite (simplify_geometry_LineString _ _ _ _ _ Hg) in Hs.
    destruct (simplify_line _ _) as [s |] eqn:Hline; simpl in Hs; [| done].
    destruct (simplify_line_keeps_ends _ _ _ Hline) as (ps & out & Hco & -> & _).
    simpl in Hs. case_bool_decide as Hlen; injection Hs as <- <-; [| congruence].
    rewrite lookup_insert_eq in Hg'. injection Hg' as <-.
    destruct co as [c |]; simpl in Hco, Hline.
    + destruct (simplify_line_first c tol out Hline ltac:(lia)) as [Ht Hi].
      unfold get_first_coordinate. simpl. rewrite Ht, Hi.
      destruct out; [simpl in Hlen; lia | done].
    + injection Hco as <-. vm_compute in Hline. injection Hline as <-. simpl in Hlen. lia.
  - (* MultiLineString *)
    rewrite (simplify_geometry_MultiLineString _ _ _ _ _ Hg) in Hs.
    destruct (items _) as [lines |] eqn:Hitems; simpl in Hs; [| done].
    destruct (mapM _ lines) as [lines' |] eqn:Hm; simpl in Hs; [| done].
    injection Hs as <- <-. rewrite lookup_insert_eq in Hg'. injection Hg' as <-.
    apply mapM_simplify_or_keep_inv in Hm as [Hrule _].
    destruct co as [c |]; simpl in Hitems.
    + destruct c as [| x | ls]; try done. injection Hitems as ->.
      unfold get_first_coordinate. simpl.
      destruct Hrule as [| line line' ls ls' Hline _]; [done |]. simpl.
      by destruct (ring_rule_first 2 tol line line' ltac:(lia) Hline) as [-> ->].
    + injection Hitems as <-. by inversion Hrule.
  - (* Polygon *)
    rewrite (simplify_geometry_Polygon _ _ _ _ _ Hg) in Hs.
    destruct (items _) as [lines |] eqn:Hitems; simpl in Hs; [| done].
    destruct (mapM _ lines) as [lines' |] eqn:Hm; simpl in Hs; [| done].
    injection Hs as <- <-. rewrite lookup_insert_eq in Hg'. injection Hg' as <-.
    apply mapM_simplify_or_keep_inv in Hm as [Hrule _].
    destruct co as [c |]; simpl in Hitems.
    + destruct c as [| x | ls]; try done. injection Hitems as ->.
      unfold get_first_coordinate. simpl.
      destruct Hrule as [| line line' ls ls' Hline _]; [done |]. simpl.
      by destruct (ring_rule_first 4 tol line line' ltac:(lia) Hline) as [-> ->].
    + injection Hitems as <-. by inversion Hrule.
Qed.
End FirstCoordinateFacts.

(** The three-point line: its first point is [[0, 0]] before and after. *)
Lemma simplify_keeps_first_coordinate_witness :
  ∃ h' g', simplify_geometry 0 0.001%float {[0 := Samples.a_line]} = Some (0, h')
           ∧ h' !! 0 = Some g'
           ∧ get_first_coordinate g' = Some (Samples.pt 0 0).
Proof.
  destruct (simplify_geometry 0 0.001%float {[0 := Samples.a_line]}) as [[r' h'] |] eqn:Hs;
    [| vm_compute in Hs; discriminate].
  assert (r' = 0) as -> by (vm_compute in Hs; congruence).
  destruct (h' !! 0) as [g' |] eqn:Hg'; [| vm_compute in Hs; injection Hs as <-; discriminate].
  exists h', g'. split_and!; [done | done |].
  rewrite (simplify_keeps_first_coordinate {[0 := Samples.a_line]} 0 Samples.a_line
             0.001%float 0 h' g'); [reflexivity | reflexivity | | exact Hs | exact Hg'].
  vm_compute. discriminate.
Defined.

(** Why the MultiPolygon is set apart: when the first polygon has no rings
    the sample is [None]; once that polygon is dropped, the first point of
    the next one comes forward. *)
Lemma first_coordinate_moves_in_multipolygon :
  get_first_coordinate
    (GDict (Some "MultiPolygon"%string)
           (Some (VList [VList []; VList [Samples.triangle]])) None)
  = Some VNone
  ∧ ∃ h' g', simplify_geometry 0 10%float
               {[0 := GDict (Some "MultiPolygon"%string)
                            (Some (VList [VList []; VList [Samples.triangle]])) None]}
             = Some (0, h')
             ∧ h' !! 0 = Some g'
             ∧ get_first_coordinate g' = Some (Samples.pt 0 0).
Proof.
  split; [reflexivity |]. eexists _, _.
  split_and!; [vm_compute; reflexivity | vm_compute; reflexivity | reflexivity].
Qed.

(** ** The optimizing pass *)

Section OptimizerFacts.
Context {num : Type} `{!Arith num, !Rounding num} {A : Type}.
Implicit Types (g : geometry num) (h : heap num) (tol : num) (r : loc) (p : Z)
               (f : feature A) (features : list (feature A))
               (co : option (value num)) (ms : option (list (geometry num))).

(** [simplify_geometry], read from a run that returned: the record keeps
    its tag and counts no more than before. *)
Lemma simplify_geometry_count h r tol r' h' g n :
  h !! r = Some g → simplify_geometry r tol h = Some (r', h') →
  count_coordinates g = Some n →
  ∃ g' n', h' !! r = Some g' ∧ get_type g' = get_type g
           ∧ count_coordinates g' = Some n' ∧ n' ≤ n.
Proof.
  intros Hg Hs Hcount.
  destruct (decide (get_type g ∈ ["LineString"; "MultiLineString"; "Polygon"; "MultiPolygon"]%string))
    as [Hin | Hout]; cycle 1.
  { rewrite (simplify_geometry_other _ _ _ _ Hg Hout) in Hs. injection Hs as <- <-.
    exists g, n. auto. }
  repeat (apply elem_of_cons in Hin as [Hty | Hin]);
    [.. | by apply elem_of_nil in Hin];
    destruct (get_type_inv g _ Hty) as (co & ms & ->); try done.
  - rewrite (simplify_geometry_LineString _ _ _ _ _ Hg) in Hs.
    rewrite count_LineString in Hcount.
    destruct (simplify_line _ _) as [s |] eqn:Hline; simpl in Hs; [| done].
    destruct (simplify_line_keeps_ends _ _ _ Hline) as (ps & out & Hco & -> & Hsub & _).
    rewrite Hco in Hcount. injection Hcount as <-.
    simpl in Hs. case_bool_decide; injection Hs as <- <-.
    + eexists _, (length out). rewrite lookup_insert_eq, count_LineString.
      split_and!; [done | done | done | by apply sublist_length].
    + exists (GDict (Some "LineString"%string) co ms), (length ps).
      rewrite count_LineString, Hco. auto.
  - rewrite (simplify_geometry_MultiLineString _ _ _ _ _ Hg) in Hs.
    rewrite count_MultiLineString in Hcount.
    destruct (default (VList []) co) as [| x | lines]; try done. simpl in Hs, Hcount.
    destruct (mapM _ lines) as [lines' |] eqn:Hm; simpl in Hs; [| done].
    injection Hs as <- <-. apply mapM_simplify_or_keep_inv in Hm as [_ Hn].
    destruct (sum_of_no_longer (λ part, if is_list part then len part else Some 1)
                lines lines') as (k & k' & Hk & Hk' & Hkk); [done | done |].
    assert (k = n) as -> by congruence.
    eexists _, k'. rewrite lookup_insert_eq, count_MultiLineString. auto.
  - rewrite (simplify_geometry_Polygon _ _ _ _ _ Hg) in Hs.
    rewrite count_Polygon in Hcount.
    destruct (default (VList []) co) as [| x | lines]; try done. simpl in Hs, Hcount.
    destruct (mapM _ lines) as [lines' |] eqn:Hm; simpl in Hs; [| done].
    injection Hs as <- <-. apply mapM_simplify_or_keep_inv in Hm as [_ Hn].
    destruct (sum_of_no_longer len lines lines') as (k & k' & Hk & Hk' & Hkk);
      [done | done |].
    assert (k = n) as -> by congruence.
    eexists _, k'. rewrite lookup_insert_eq, count_Polygon. auto.
  - rewrite (simplify_geometry_MultiPolygon _ _ _ _ _ Hg) in Hs.
    rewrite count_MultiPolygon in Hcount.
    destruct (default (VList []) co) as [| x | polygons]; try done. simpl in Hs, Hcount.
    destruct (mapM _ polygons) as [simplified |] eqn:Hm; simpl in Hs; [| done].
    injection Hs as <- <-.
    assert (Forall2 (λ polygon rings', ∃ rings, polygon = VList rings
                       ∧ Forall2 (λ line line', no_longer line' line) rings rings')
                    polygons simplified) as Hsim.
    { apply mapM_Some_1 in Hm.
      clear Hcount Hg.
      induction Hm as [| polygon rings' ps ss Hp _ IH]; [constructor |].
      constructor; [| done].
      destruct polygon as [| x | rings]; try done. simpl in Hp.
      apply mapM_simplify_or_keep_inv in Hp as [_ Hn]. by exists rings. }
    destruct (sum_of_polygons polygons simplified Hsim) as (k & k' & Hk & Hk' & Hkk).
    assert (k = n) as -> by congruence.
    eexists _, k'. rewrite lookup_insert_eq, count_MultiPolygon. auto.
Qed.

(** [round_coordinates], read from a run that returned: the record keeps
    its tag and its count. *)
Lemma round_coordinates_count h r p r' h' g :
  h !! r = Some g → round_coordinates r p h = Some (r', h') →
  ∃ g', h' !! r = Some g' ∧ get_type g' = get_type g
        ∧ count_coordinates g' = count_coordinates g.
Proof.
  intros Hg Hr.
  destruct (round_coordinates_cases h r p g Hg) as [[Hsame _] | (ty & c & gs & -> & _ & Heq)].
  - rewrite Hsame in Hr. injection Hr as <- <-. eauto.
  - rewrite Heq in Hr. destruct (round_coord p c) as [c' |] eqn:Hc; simpl in Hr; [| done].
    injection Hr as <- <-. eexists. rewrite lookup_insert_eq. split_and!; [done | done |].
    apply count_coordinates_shape. by eapply round_coord_shape.
Qed.

(** One round of the loop: the optimized feature points to a new object;
    nothing else in the heap changes. *)
Lemma optimize_feature_spec tol p f h f' cb ca h' :
  optimize_feature tol p f h = Some (f', cb, ca, h') →
  ∃ l' g g',
    f' = Feature (Some l') (f_members f) ∧ h !! l' = None
    ∧ (∀ k, k ≠ l' → h' !! k = h !! k)
    ∧ feature_geometry f h = Some g ∧ g ≠ GNone ∧ count_coordinates g = Some cb
    ∧ h' !! l' = Some g' ∧ get_type g' = get_type g
    ∧ count_coordinates g' = Some ca ∧ ca ≤ cb.
Proof.
  unfold optimize_feature.
  destruct (feature_geometry f h) as [g |] eqn:Hfg; simpl; [| done].
  destruct (count_coordinates g) as [n |] eqn:Hn; simpl; [| done].
  destruct g as [| ty co ms] eqn:Hgeq; simpl; [done |]. rewrite <- Hgeq in *.
  set (l' := fresh (dom h)).
  assert (h !! l' = None) as Hfresh by apply not_elem_of_dom, is_fresh.
  destruct (simplify_geometry l' tol (<[l' := g]> h)) as [[r1 h2] |] eqn:Hs; simpl; [| done].
  destruct (simplify_geometry_writes _ _ _ _ _ Hs) as (-> & g0 & Hg0 & Hh2).
  rewrite lookup_insert_eq in Hg0. injection Hg0 as <-.
  destruct (simplify_geometry_count _ _ _ _ _ g n (lookup_insert_eq _ _ _) Hs Hn)
    as (g1 & n1 & Hg1 & Hty1 & Hn1 & Hle1).
  destruct (round_coordinates l' p h2) as [[r2 h3] |] eqn:Hr; simpl; [| done].
  destruct (round_coordinates_writes _ _ _ _ _ Hr) as (-> & g1' & Hg1' & Hh3).
  rewrite Hg1 in Hg1'. injection Hg1' as <-.
  destruct (round_coordinates_count _ _ _ _ _ g1 Hg1 Hr) as (g2 & Hg2 & Hty2 & Hn2).
  rewrite Hg2. simpl. rewrite Hn2, Hn1. simpl. intros [= <- <- <- <-].
  exists l', g, g2. split_and!; try done; [| by subst | congruence | congruence].
  intros k Hk.
  assert (h2 !! k = h !! k) as <-.
  { destruct Hh2 as [-> | (c & ->)]; by rewrite !lookup_insert_ne. }
  destruct Hh3 as [-> | (c & ->)]; [done |]. by rewrite lookup_insert_ne.
Qed.

(** The loop, from any point of the run on. *)
Lemma optimize_features_spec tol p features acc tb ta h out tb' ta' h' :
  optimize_features tol p features acc tb ta h = Some (out, tb', ta', h') →
  (∀ k, is_Some (h !! k) → h' !! k = h !! k)
  ∧ ta' + tb ≤ tb' + ta ∧ tb ≤ tb'
  ∧ ∃ new, out = acc ++ new
      ∧ NoDup (f_geometry <$> new)
      ∧ Forall2 (λ f f', f_members f' = f_members f
                   ∧ ∃ l' g g', f_geometry f' = Some l' ∧ h !! l' = None
                                ∧ feature_geometry f h' = Some g
                                ∧ h' !! l' = Some g' ∧ get_type g' = get_type g)
                features new.
Proof.
  revert acc tb ta h. induction features as [| f features IH]; intros acc tb ta h; simpl.
  { intros [= <- <- <- <-]. split_and!; [done | lia | lia |].
    exists []. rewrite app_nil_r. split_and!; [done | constructor | constructor]. }
  destruct (optimize_feature tol p f h) as [[[[f1 cb] ca] h1] |] eqn:Hf; simpl; [| done].
  apply optimize_feature_spec in Hf
    as (l1 & g & g1 & -> & Hfresh & Hframe & Hfg & _ & _ & Hl1 & Hty & _ & Hle).
  intros (Hkeep & Htot & Htb & new & -> & Hnodup & Hall)%IH.
  assert (∀ k, is_Some (h !! k) → h' !! k = h !! k) as Hkeep'.
  { intros k Hk. assert (k ≠ l1) as Hne by (intros ->; rewrite Hfresh in Hk; by destruct Hk).
    rewrite <- (Hframe k Hne). apply Hkeep. by rewrite (Hframe k Hne). }
  split_and!; [done | lia | lia |].
  exists (Feature (Some l1) (f_members f) :: new).
  split_and!.
  - by rewrite <- app_assoc.
  - rewrite fmap_cons. apply NoDup_cons. split; [| done]. simpl.
    intros (f' & Heq & Hin)%list_elem_of_fmap.
    apply list_elem_of_lookup in Hin as [i Hi].
    destruct (Forall2_lookup_r _ _ _ _ _ Hall Hi) as (f0 & _ & _ & l' & ? & ? & Hl' & Hnone & _).
    rewrite <- Heq in Hl'. injection Hl' as <-. congruence.
  - constructor.
    + split; [done |]. exists l1, g, g1. split_and!; try done.
      * unfold feature_geometry in *. destruct (f_geometry f) as [l |]; [| done].
        rewrite Hkeep' by (by rewrite Hfg). done.
      * rewrite Hkeep by (by rewrite Hl1). done.
    + eapply List.Forall2_impl; [| exact Hall].
      intros f0 f0' (Hm & l' & g0 & g0' & ? & Hnone & ? & ? & ?).
      split; [done |]. exists l', g0, g0'. split_and!; try done.
      destruct (h !! l') as [x |] eqn:Hx; [| done].
      assert (l' ≠ l1) as Hne by congruence.
      rewrite (Hframe l' Hne), Hx in Hnone. done.
Qed.

(** The optimizing loop writes to no object that was there before it
    started: every record of the heap holds afterwards what it held. *)
Theorem optimize_features_keeps_inputs tol p features h out tb ta h' :
  optimize_features tol p features [] 0 0 h = Some (out, tb, ta, h') →
  ∀ l g, h !! l = Some g → h' !! l = Some g.
Proof.
  intros (Hkeep & _)%optimize_features_spec l g Hl.
  rewrite Hkeep by (by rewrite Hl). done.
Qed.

(** The total count after optimizing is at most the total count before. *)
Theorem optimize_features_totals tol p features h out tb ta h' :
  optimize_features tol p features [] 0 0 h = Some (out, tb, ta, h') → ta ≤ tb.
Proof. intros (_ & Htot & _)%optimize_features_spec. lia. Qed.

(** The optimized features come one per feature and in order; each keeps
    the members of its feature, and its geometry is an object of its own,
    new to the heap, with the type tag of the geometry it was made from. *)
Theorem optimize_features_shape tol p features h out tb ta h' :
  optimize_features tol p features [] 0 0 h = Some (out, tb, ta, h') →
  NoDup (f_geometry <$> out)
  ∧ Forall2 (λ f f', f_members f' = f_members f
               ∧ ∃ l' g g', f_geometry f' = Some l' ∧ h !! l' = None
                            ∧ feature_geometry f h' = Some g
                            ∧ h' !! l' = Some g' ∧ get_type g' = get_type g)
            features out.
Proof. intros (_ & _ & _ & new & -> & Hnodup & Hall)%optimize_features_spec. done. Qed.

Lemma optimize_features_null tol p features acc tb ta h f l :
  f ∈ features → f_geometry f = Some l → h !! l = Some GNone →
  optimize_features tol p features acc tb ta h = None.
Proof.
  intros Hin Hf. revert acc tb ta h.
  induction features as [| f0 features IH]; intros acc tb ta h Hl;
    [by apply elem_of_nil in Hin |].
  simpl. apply elem_of_cons in Hin as [<- | Hin].
  - unfold optimize_feature, feature_geometry. rewrite Hf, Hl. done.
  - destruct (optimize_feature tol p f0 h) as [[[[f1 cb] ca] h1] |] eqn:H0; simpl; [| done].
    apply optimize_feature_spec in H0 as (l1 & ? & ? & _ & Hfresh & Hframe & _).
    apply IH; [done |]. rewrite Hframe; [done |]. congruence.
Qed.

Lemma analyze_features_null features h idx st f l :
  f ∈ features → f_geometry f = Some l → h !! l = Some GNone →
  analyze_features h idx features st = None.
Proof.
  intros Hin Hf Hl. revert idx st.
  induction features as [| f0 features IH]; intros idx st;
    [by apply elem_of_nil in Hin |].
  simpl. apply elem_of_cons in Hin as [<- | Hin].
  - unfold analyze_feature, feature_geometry. rewrite Hf, Hl. done.
  - destruct (analyze_feature h idx f0 st); simpl; [| done]. by apply IH.
Qed.

(** A feature whose geometry is [null] stops both passes: [geom.copy()]
    raises in the optimizing loop and [geom.get] in the analysis loop. *)
Theorem null_geometry_raises tol p features h f l :
  f ∈ features → f_geometry f = Some l → h !! l = Some GNone →
  optimize_features tol p features [] 0 0 h = None
  ∧ analyze_statistics features h = None.
Proof.
  intros Hin Hf Hl. split; [by eapply optimize_features_null |].
  unfold analyze_statistics. destruct features as [| f0 fs] eqn:Heq;
    [by apply elem_of_nil in Hin |].
  by erewrite analyze_features_null.
Qed.
End OptimizerFacts.

(** On the sample collection the loop returns; the point and the line of
    the input are then still what they were. *)
Lemma optimize_features_keeps_inputs_witness :
  ∃ out tb ta h',
    optimize_features 0.001%float 4 Collection.features [] 0 0 Collection.objects
    = Some (out, tb, ta, h')
    ∧ h' !! 0 = Some Samples.a_point ∧ h' !! 1 = Some Samples.a_line.
Proof.
  destruct (optimize_features 0.001%float 4 Collection.features [] 0 0 Collection.objects)
    as [[[[out tb] ta] h'] |] eqn:Hrun; [| vm_compute in Hrun; discriminate].
  exists out, tb, ta, h'. split_and!; [done | |].
  - apply (optimize_features_keeps_inputs _ _ _ _ _ _ _ _ Hrun). reflexivity.
  - apply (optimize_features_keeps_inputs _ _ _ _ _ _ _ _ Hrun). reflexivity.
Defined.

(** On the sample collection the totals are 4 before and at most 4 after. *)
Lemma optimize_features_totals_witness :
  ∃ out ta h',
    optimize_features 0.001%float 4 Collection.features [] 0 0 Collection.objects
    = Some (out, 4, ta, h')
    ∧ ta ≤ 4.
Proof.
  destruct (optimize_features 0.001%float 4 Collection.features [] 0 0 Collection.objects)
    as [[[[out tb] ta] h'] |] eqn:Hrun; [| vm_compute in Hrun; discriminate].
  assert (tb = 4) as -> by (vm_compute in Hrun; congruence).
  exists out, ta, h'. split; [done |].
  apply (optimize_features_totals _ _ _ _ _ _ _ _ Hrun).
Defined.

(** On the sample collection the three optimized features point to three
    different objects. *)
Lemma optimize_features_shape_witness :
  ∃ out tb ta h',
    optimize_features 0.001%float 4 Collection.features [] 0 0 Collection.objects
    = Some (out, tb, ta, h')
    ∧ NoDup (f_geometry <$> out) ∧ length out = 3.
Proof.
  destruct (optimize_features 0.001%float 4 Collection.features [] 0 0 Collection.objects)
    as [[[[out tb] ta] h'] |] eqn:Hrun; [| vm_compute in Hrun; discriminate].
  exists out, tb, ta, h'.
  destruct (optimize_features_shape _ _ _ _ _ _ _ _ Hrun) as [Hnodup Hall].
  split_and!; [done | done |].
  symmetry. apply (Forall2_length _ _ _ Hall).
Defined.

(** The fourth feature of the second sample collection is the null one. *)
Lemma null_geometry_raises_witness :
  optimize_features 0.001%float 4 Collection.features_null [] 0 0 Collection.objects_null
  = None
  ∧ analyze_statistics Collection.features_null Collection.objects_null = None.
Proof.
  apply (null_geometry_raises _ _ _ _ (Feature (Some 2) tt) 2).
  - unfold Collection.features_null. apply elem_of_app. right. apply list_elem_of_singleton.
    reflexivity.
  - reflexivity.
  - reflexivity.
Defined.

(** ** The histogram of geometry types *)

Section HistogramFacts.
Implicit Types (t k : string) (ts : list string) (types : list (string * nat)).

Lemma bump_keys t types :
  (bump t types).*1 = if decide (t ∈ types.*1) then types.*1 else types.*1 ++ [t].
Proof.
  induction types as [| [k n] types IH].
  - case_decide as Hin; [by apply elem_of_nil in Hin | done].
  - cbn [bump]. destruct (String.eqb_spec k t) as [-> | Hne].
    + clear IH. rewrite !fmap_cons. cbn [fst]. case_decide as Hin; [done |]. exfalso. apply Hin. left.
    + rewrite !fmap_cons, IH. clear IH. cbn [fst].
      destruct (decide (t ∈ types.*1)) as [Hin | Hout].
      * case_decide as Hin'; [done |]. exfalso. apply Hin'. by right.
      * case_decide as Hin'; [| done]. by apply elem_of_cons in Hin' as [-> | Hin'].
Qed.

Lemma count_of_bump t' t types :
  count_of t' (bump t types) = count_of t' types + (if decide (t' = t) then 1 else 0).
Proof.
  induction types as [| [k n] types IH]; cbn [bump count_of].
  - destruct (String.eqb_spec t t') as [-> | Hne]; case_decide; first [lia | congruence].
  - destruct (String.eqb_spec k t) as [-> | Hne]; cbn [count_of].
    + destruct (String.eqb_spec t t') as [-> | Hne']; case_decide; first [lia | congruence].
    + destruct (String.eqb_spec k t') as [-> | Hne']; [| apply IH].
      case_decide; first [lia | congruence].
Qed.

Lemma sum_bump t types : sum_list (bump t types).*2 = S (sum_list types.*2).
Proof.
  induction types as [| [k n] types IH]; [done |].
  cbn [bump]. destruct (String.eqb_spec k t) as [-> | Hne];
    rewrite !fmap_cons; cbn [snd sum_list_with]; [| rewrite IH]; cbv [Datatypes.id]; lia.
Qed.

Lemma count_of_absent types k : k ∉ types.*1 → count_of k types = 0.
Proof.
  induction types as [| [k' n] types IH]; simpl; [done |].
  intros Hout. destruct (String.eqb_spec k' k) as [-> | Hne].
  - exfalso. apply Hout. left.
  - apply IH. intros Hin. apply Hout. by right.
Qed.

Lemma count_of_entry types k n :
  NoDup types.*1 → (k, n) ∈ types → count_of k types = n.
Proof.
  induction types as [| [k' n'] types IH]; simpl.
  - intros _ Hin. by apply elem_of_nil in Hin.
  - intros [Hout Hnd]%NoDup_cons [[= <- <-] | Hin]%elem_of_cons.
    + by rewrite String.eqb_refl.
    + destruct (String.eqb_spec k' k) as [-> | Hne]; [| by apply IH].
      exfalso. apply Hout. apply list_elem_of_fmap. by exists (k, n).
Qed.

Lemma histogram_snoc ts t : histogram (ts ++ [t]) = bump t (histogram ts).
Proof. unfold histogram. by rewrite foldl_snoc. Qed.

Lemma occurrences_snoc t ts t' :
  occurrences t (ts ++ [t']) = occurrences t ts + (if decide (t = t') then 1 else 0).
Proof.
  unfold occurrences. rewrite filter_app, length_app. f_equal.
  rewrite filter_cons, filter_nil.
  destruct (decide (t' = t)) as [-> | Hne]; case_decide; first [done | congruence].
Qed.

Lemma occurrences_pos t ts : t ∈ ts ↔ 0 < occurrences t ts.
Proof.
  unfold occurrences. split.
  - intros Hin. assert (t ∈ filter (λ t', t' = t) ts) as Hf by by apply list_elem_of_filter.
    destruct (filter _ ts); [by apply elem_of_nil in Hf | simpl; lia].
  - intros Hpos. destruct (filter (λ t', t' = t) ts) as [| x l] eqn:Hf; [simpl in Hpos; lia |].
    assert (x ∈ filter (λ t', t' = t) ts) as Hx by (rewrite Hf; left).
    apply list_elem_of_filter in Hx as [-> ?]. done.
Qed.

(** The histogram of a run of tags: each tag once, in the order of first
    appearance, with the number of its occurrences. *)
Lemma histogram_spec ts :
  NoDup (histogram ts).*1
  ∧ (∀ t, t ∈ (histogram ts).*1 ↔ t ∈ ts)
  ∧ (∀ t, count_of t (histogram ts) = occurrences t ts)
  ∧ sum_list (histogram ts).*2 = length ts
  ∧ (∀ i j t1 t2, i < j → (histogram ts).*1 !! i = Some t1 →
       (histogram ts).*1 !! j = Some t2 →
       ∃ a, ts !! a = Some t1 ∧ ∀ b, b ≤ a → ts !! b ≠ Some t2).
Proof.
  induction ts as [| t ts (Hnd & Hkeys & Hcount & Hsum & Horder)] using rev_ind.
  { split_and!; try done. constructor. }
  rewrite histogram_snoc, bump_keys.
  assert (∀ a (t1 : string), ts !! a = Some t1 → (ts ++ [t]) !! a = Some t1) as Hup.
  { intros a t1 Ha. rewrite lookup_app_l; [done |]. by eapply lookup_lt_Some. }
  assert (∀ i j t1 t2, i < j → (histogram ts).*1 !! i = Some t1 →
            (histogram ts).*1 !! j = Some t2 →
            ∃ a, (ts ++ [t]) !! a = Some t1 ∧ ∀ b, b ≤ a → (ts ++ [t]) !! b ≠ Some t2)
    as Horder'.
  { intros i j t1 t2 Hij Hi Hj. destruct (Horder i j t1 t2 Hij Hi Hj) as (a & Ha & Hb).
    exists a. split; [by apply Hup |]. intros b Hba.
    rewrite lookup_app_l; [by apply Hb |]. apply lookup_lt_Some in Ha. lia. }
  split_and!.
  - case_decide as Hin; [done |]. apply NoDup_app. split_and!; [done | | apply NoDup_singleton].
    intros x Hx ->%list_elem_of_singleton. done.
  - intros t'. rewrite elem_of_app, list_elem_of_singleton.
    case_decide as Hin; [| rewrite elem_of_app, list_elem_of_singleton; by rewrite Hkeys].
    rewrite Hkeys. split; [by left |]. intros [? | ->]; [done | by apply Hkeys].
  - intros t'. by rewrite count_of_bump, occurrences_snoc, Hcount.
  - rewrite sum_bump, Hsum, length_app. simpl. lia.
  - case_decide as Hin; [done |].
    intros i j t1 t2 Hij Hi Hj.
    destruct (decide (j < length (histogram ts).*1)) as [Hlt | Hge].
    + rewrite lookup_app_l in Hi, Hj by lia. exact (Horder' i j t1 t2 Hij Hi Hj).
    + rewrite lookup_app_r in Hj by lia.
      assert (t2 = t) as ->.
      { destruct (j - length (histogram ts).*1) as [| n]; simpl in Hj; [congruence |].
        by rewrite lookup_nil in Hj. }
      assert (i < length (histogram ts).*1) as Hi'.
      { apply lookup_lt_Some in Hj. simpl in Hj. lia. }
      rewrite lookup_app_l in Hi by done.
      assert (t1 ∈ ts) as [a Ha]%list_elem_of_lookup.
      { apply Hkeys. by eapply list_elem_of_lookup_2. }
      exists a. split; [by apply Hup |]. intros b Hba.
      rewrite lookup_app_l by (apply lookup_lt_Some in Ha; lia).
      intros Hb. apply Hin, Hkeys. by eapply list_elem_of_lookup_2.
Qed.

(** [max] with a key: an item of the largest count, and the first such. *)
Lemma max_by_count_spec best items :
  ∃ i, (best :: items) !! i = Some (max_by_count best items)
       ∧ (∀ j it, (best :: items) !! j = Some it → it.2 ≤ (max_by_count best items).2)
       ∧ (∀ j it, j < i → (best :: items) !! j = Some it →
                  it.2 < (max_by_count best items).2).
Proof.
  revert best. induction items as [| item items IH]; intros best; simpl.
  { exists 0. split_and!; [done | | lia].
    intros [| j] it Hj; simpl in Hj; [injection Hj as <-; lia | by rewrite lookup_nil in Hj]. }
  destruct (IH (if bool_decide (best.2 < item.2) then item else best))
    as (i & Hi & Hmax & Hfirst).
  set (r := max_by_count _ items) in *. clearbody r.
  case_bool_decide as Hlt.
  - exists (S i). split_and!; [done | |].
    + intros [| j] it Hj; simpl in Hj; [| by eapply Hmax].
      injection Hj as <-. specialize (Hmax 0 item eq_refl). lia.
    + intros [| j] it Hji Hj; simpl in Hj; [| eapply (Hfirst j); [lia | done]].
      injection Hj as <-. specialize (Hmax 0 item eq_refl). lia.
  - destruct i as [| i].
    + simpl in Hi. injection Hi as <-. exists 0. split_and!; [done | | lia].
      intros [| [| j]] it Hj; simpl in Hj.
      * injection Hj as <-. lia.
      * injection Hj as <-. lia.
      * by apply (Hmax (S j)).
    + exists (S (S i)). split_and!; [done | |].
      * intros [| [| j]] it Hj; simpl in Hj.
        -- by apply (Hmax 0).
        -- injection Hj as <-. specialize (Hmax 0 best eq_refl). lia.
        -- by apply (Hmax (S j)).
      * intros [| [| j]] it Hji Hj; simpl in Hj.
        -- apply (Hfirst 0); [lia | done].
        -- injection Hj as <-. specialize (Hfirst 0 best ltac:(lia) eq_refl). lia.
        -- apply (Hfirst (S j)); [lia | done].
Qed.
End HistogramFacts.

(** ** The analysis pass *)

Section AnalysisFacts.
Context {num : Type} {A : Type}.
Implicit Types (h : heap num) (f : feature A) (features : list (feature A))
               (st : stats) (cs : list nat) (ts : list string).

(** One round of the loop. *)
Lemma analyze_feature_spec h idx f st st' :
  analyze_feature h idx f st = Some st' ↔
  ∃ t c, feature_type f h = Some t ∧ feature_count f h = Some c
    ∧ st' = Stats (total_coords st + c)
                  (if bool_decide (max_coords st < c) then c else max_coords st)
                  (if bool_decide (max_coords st < c) then idx else max_coords_idx st)
                  (if bool_decide (0 < c)
                      && match min_coords st with
                         | None => true
                         | Some m => bool_decide (c < m)
                         end
                   then Some c else min_coords st)
                  (bump t (geometry_types st)).
Proof.
  unfold analyze_feature, feature_type, feature_count.
  destruct (feature_geometry f h) as [g |]; simpl;
    [| split; [intros [=] | intros (? & ? & [=] & _)]].
  destruct (count_coordinates g) as [c |]; clear;
    (destruct g as [| ty co ms]; simpl;
     [split; [intros [=] | intros (? & ? & [=] & _)] |]).
  - split.
    + destruct (bool_decide (max_coords st < c)) eqn:Hmax; simpl;
        intros [= <-]; eexists _, c; by rewrite Hmax.
    + intros (t & c' & [= <-] & [= <-] & ->).
      by destruct (bool_decide (max_coords st < _)).
  - split; [intros [=] | intros (? & ? & _ & [=] & _)].
Qed.

(** The loop from any point of the run on: the counters. *)
Lemma analyze_features_counts h idx features st st' :
  analyze_features h idx features st = Some st' →
  ∃ cs, Forall2 (λ f c, feature_count f h = Some c) features cs
    ∧ total_coords st' = total_coords st + sum_list cs
    ∧ max_coords st' = max_coords st `max` max_list cs
    ∧ (max_list cs ≤ max_coords st → max_coords_idx st' = max_coords_idx st)
    ∧ (max_coords st < max_list cs →
       ∃ j, max_coords_idx st' = idx + j ∧ cs !! j = Some (max_list cs)
            ∧ ∀ i c, i < j → cs !! i = Some c → c < max_list cs)
    ∧ (∀ m, min_coords st' = Some m →
         (min_coords st = Some m ∨ (m ∈ cs ∧ 0 < m))
         ∧ (∀ m0, min_coords st = Some m0 → m ≤ m0)
         ∧ (∀ c, c ∈ cs → 0 < c → m ≤ c))
    ∧ (min_coords st' = None → min_coords st = None ∧ ∀ c, c ∈ cs → c = 0).
Proof.
  revert idx st. induction features as [| f features IH]; intros idx st; simpl.
  { intros [= <-]. exists []. simpl. split_and!; try done; try lia.
    - intros m Hm. split_and!; [by left | | ].
      + intros m0 Hm0. assert (m0 = m) by congruence. lia.
      + intros c Hc. by apply elem_of_nil in Hc.
    - intros Hn. split; [done |]. intros c Hc. by apply elem_of_nil in Hc. }
  destruct (analyze_feature h idx f st) as [st1 |] eqn:Hf; simpl; [| done].
  apply analyze_feature_spec in Hf as (t & c & _ & Hc & ->).
  set (mx1 := if bool_decide (max_coords st < c) then c else max_coords st).
  set (ix1 := if bool_decide (max_coords st < c) then idx else max_coords_idx st).
  set (mn1 := if bool_decide (0 < c)
                 && match min_coords st with
                    | None => true
                    | Some m => bool_decide (c < m)
                    end
              then Some c else min_coords st).
  assert ((max_coords st < c ∧ mx1 = c ∧ ix1 = idx)
          ∨ (c ≤ max_coords st ∧ mx1 = max_coords st ∧ ix1 = max_coords_idx st)) as Hmx.
  { subst mx1 ix1. case_bool_decide; [left | right]; split_and!; [done | done | done | lia | done | done]. }
  assert ((mn1 = Some c ∧ 0 < c ∧ ∀ m0, min_coords st = Some m0 → c < m0)
          ∨ (mn1 = min_coords st ∧ (0 < c → ∃ m0, min_coords st = Some m0 ∧ m0 ≤ c))) as Hmn.
  { subst mn1. destruct (min_coords st) as [m0 |]; repeat case_bool_decide; simpl.
    - left. split_and!; [done | done |]. by intros ? [= <-].
    - right. split; [done |]. intros _. exists m0. split; [done | lia].
    - right. split; [done |]. lia.
    - right. split; [done |]. lia.
    - left. by split_and!.
    - right. split; [done |]. lia. }
  clearbody mx1 ix1 mn1.
  intros (cs & Hall & Htot & Hmax & Hidx1 & Hidx2 & Hmin1 & Hmin2)%IH.
  simpl in *. exists (c :: cs). simpl.
  split_and!.
  - by constructor.
  - lia.
  - lia.
  - intros Hle. rewrite Hidx1 by lia. lia.
  - intros Hlt. destruct (decide (max_list cs ≤ mx1)) as [Hle | Hgt].
    + specialize (Hidx1 Hle).
      exists 0. split_and!; [lia | simpl; f_equal; lia | lia].
    + destruct Hidx2 as (j & Hj & Hcj & Hbefore); [lia |].
      exists (S j). split_and!; [lia | simpl; rewrite Hcj; f_equal; lia |].
      intros [| i] c0 Hi Hc0; simpl in Hc0.
      * injection Hc0 as <-. lia.
      * specialize (Hbefore i c0 ltac:(lia) Hc0). lia.
  - intros m Hm. destruct (Hmin1 m Hm) as (Hfrom & Hle0 & Hlec).
    destruct Hmn as [(-> & Hpos & Hlow) | (-> & Hup)].
    + specialize (Hle0 c eq_refl). split_and!.
      * right. destruct Hfrom as [[= ->] | [Hin Hpos']]; (split; [| done]); [left | by right].
      * intros m0 Hm0. specialize (Hlow m0 Hm0). lia.
      * intros c0 [-> | Hin]%elem_of_cons Hpos'; [lia | by apply Hlec].
    + split_and!.
      * destruct Hfrom as [? | [Hin Hpos']]; [by left | right; split; [by right | done]].
      * done.
      * intros c0 [-> | Hin]%elem_of_cons Hpos'; [| by apply Hlec].
        destruct (Hup Hpos') as (m0 & Hm0 & Hle). specialize (Hle0 m0 Hm0). lia.
  - intros Hn. destruct (Hmin2 Hn) as [Hst Hzero].
    destruct Hmn as [(-> & _) | (-> & Hup)]; [done |].
    split; [done |].
    intros c0 [-> | Hin]%elem_of_cons; [| by apply Hzero].
    destruct (decide (0 < c)) as [Hpos |]; [| lia].
    destruct (Hup Hpos) as (m0 & Hm0 & _). congruence.
Qed.

(** The loop from any point of the run on: the histogram. *)
Lemma analyze_features_types h idx features st st' :
  analyze_features h idx features st = Some st' →
  ∃ ts, Forall2 (λ f t, feature_type f h = Some t) features ts
    ∧ geometry_types st' = foldl (λ types t, bump t types) (geometry_types st) ts.
Proof.
  revert idx st. induction features as [| f features IH]; intros idx st; simpl.
  { intros [= <-]. by exists []. }
  destruct (analyze_feature h idx f st) as [st1 |] eqn:Hf; simpl; [| done].
  apply analyze_feature_spec in Hf as (t & c & Ht & _ & ->).
  intros (ts & Hall & Htypes)%IH. exists (t :: ts). split; [by constructor | done].
Qed.

(** The loop returns when every feature has a geometry that is not
    [None] and that [count_coordinates] accepts. *)
Lemma analyze_features_is_Some h idx features st cs :
  Forall2 (λ f c, feature_count f h = Some c ∧ is_Some (feature_type f h)) features cs →
  is_Some (analyze_features h idx features st).
Proof.
  intros Hall. revert idx st.
  induction Hall as [| f c features cs [Hc [t Ht]] _ IH]; intros idx st; simpl; [by eexists |].
  destruct (analyze_feature h idx f st) as [st1 |] eqn:Hf; simpl; [apply IH |].
  assert (is_Some (analyze_feature h idx f st)) as [? ?]; [| congruence].
  eexists. apply analyze_feature_spec. by exists t, c.
Qed.

(** The total is the sum of the counts of the features; the maximum is
    their largest, and the index kept with it is that of the first feature
    that has it (0 when every count is 0). *)
Theorem analyze_statistics_counters features h s :
  analyze_statistics features h = Some (Some s) →
  ∃ cs, Forall2 (λ f c, feature_count f h = Some c) features cs
    ∧ total_coords s = sum_list cs
    ∧ max_coords s = max_list cs
    ∧ max_coords_idx s < length features
    ∧ (max_list cs = 0 → max_coords_idx s = 0)
    ∧ (0 < max_list cs →
       cs !! max_coords_idx s = Some (max_list cs)
       ∧ ∀ i c, i < max_coords_idx s → cs !! i = Some c → c < max_list cs).
Proof.
  unfold analyze_statistics. destruct features as [| f0 fs] eqn:Heq; [done |].
  assert (0 < length features) as Hlen by (subst features; simpl; lia).
  rewrite <- Heq. clear Heq.
  destruct (analyze_features h 0 features _) as [s' |] eqn:Hrun; [| done].
  intros [= ->].
  apply analyze_features_counts in Hrun
    as (cs & Hall & Htot & Hmax & Hidx1 & Hidx2 & _).
  simpl in *. exists cs. split_and!; [done | done | done | | |].
  - destruct (decide (max_list cs = 0)) as [Hz | Hnz].
    + rewrite Hidx1 by lia. done.
    + destruct Hidx2 as (j & -> & Hj & _); [lia |].
      apply lookup_lt_Some in Hj. by rewrite (Forall2_length _ _ _ Hall).
  - intros Hz. apply Hidx1. lia.
  - intros Hpos. destruct (Hidx2 Hpos) as (j & -> & Hj & Hbefore). done.
Qed.

(** The minimum is the least count that is not 0, and still infinite,
    which is [None] here, when every count is 0. *)
Theorem analyze_statistics_min features h s :
  analyze_statistics features h = Some (Some s) →
  ∃ cs, Forall2 (λ f c, feature_count f h = Some c) features cs
    ∧ (min_coords s = None ↔ ∀ c, c ∈ cs → c = 0)
    ∧ (∀ m, min_coords s = Some m ↔
            m ∈ cs ∧ 0 < m ∧ ∀ c, c ∈ cs → 0 < c → m ≤ c).
Proof.
  unfold analyze_statistics. destruct features as [| f0 fs] eqn:Heq; [done |].
  rewrite <- Heq. clear Heq.
  destruct (analyze_features h 0 features _) as [s' |] eqn:Hrun; [| done].
  intros [= ->].
  apply analyze_features_counts in Hrun as (cs & Hall & _ & _ & _ & _ & Hmin1 & Hmin2).
  simpl in *. exists cs.
  assert (∀ m, min_coords s = Some m → m ∈ cs ∧ 0 < m ∧ ∀ c, c ∈ cs → 0 < c → m ≤ c)
    as Hsome.
  { intros m Hm. destruct (Hmin1 m Hm) as ([? | [? ?]] & _ & ?); done. }
  split_and!; [done | |].
  - split; [intros Hn; by apply Hmin2 |].
    intros Hzero. destruct (min_coords s) as [m |] eqn:Hm; [| done].
    destruct (Hsome m eq_refl) as (Hin & Hpos & _). specialize (Hzero m Hin). lia.
  - intros m. split; [apply Hsome |].
    intros (Hin & Hpos & Hleast).
    destruct (min_coords s) as [m' |] eqn:Hm.
    + destruct (Hsome m' eq_refl) as (Hin' & Hpos' & Hleast').
      specialize (Hleast m' Hin' Hpos'). specialize (Hleast' m Hin Hpos).
      f_equal. lia.
    + destruct (Hmin2 eq_refl) as [_ Hzero]. specialize (Hzero m Hin). lia.
Qed.

(** The histogram lists every tag met once, in the order in which the tags
    are first met, each with the number of features filed under it; the
    numbers add up to the number of features. *)
Theorem analyze_statistics_histogram features h s :
  analyze_statistics features h = Some (Some s) →
  ∃ ts, Forall2 (λ f t, feature_type f h = Some t) features ts
    ∧ NoDup (geometry_types s).*1
    ∧ (∀ t n, (t, n) ∈ geometry_types s ↔ t ∈ ts ∧ n = occurrences t ts)
    ∧ sum_list (geometry_types s).*2 = length features
    ∧ (∀ i j t1 t2, i < j → (geometry_types s).*1 !! i = Some t1 →
         (geometry_types s).*1 !! j = Some t2 →
         ∃ a, ts !! a = Some t1 ∧ ∀ b, b ≤ a → ts !! b ≠ Some t2).
Proof.
  unfold analyze_statistics. destruct features as [| f0 fs] eqn:Heq; [done |].
  rewrite <- Heq. clear Heq.
  destruct (analyze_features h 0 features _) as [s' |] eqn:Hrun; [| done].
  intros [= ->].
  apply analyze_features_types in Hrun as (ts & Hall & Htypes). simpl in Htypes.
  fold (histogram ts) in Htypes. rewrite Htypes.
  destruct (histogram_spec ts) as (Hnd & Hkeys & Hcount & Hsum & Horder).
  exists ts. split_and!; [done | done | | | done].
  - intros t n. split.
    + intros Hin. assert (t ∈ (histogram ts).*1) as Hk.
      { apply list_elem_of_fmap. by exists (t, n). }
      split; [by apply Hkeys |]. by rewrite <- Hcount, (count_of_entry _ t n).
    + intros [Hin ->]. apply Hkeys, list_elem_of_fmap in Hin as ([k n] & Hk & Hin).
      simpl in Hk. subst k. by rewrite <- Hcount, (count_of_entry _ t n).
  - rewrite Hsum. symmetry. by eapply Forall2_length.
Qed.

(** The dominant type is a tag with the most features, and among the tags
    with the most features the one whose first feature comes first. *)
Theorem analyze_statistics_primary_type features h s :
  analyze_statistics features h = Some (Some s) →
  ∃ ts, Forall2 (λ f t, feature_type f h = Some t) features ts
    ∧ primary_type (geometry_types s) ∈ ts
    ∧ (∀ t, occurrences t ts ≤ occurrences (primary_type (geometry_types s)) ts)
    ∧ (∀ t, t ≠ primary_type (geometry_types s) →
         occurrences t ts = occurrences (primary_type (geometry_types s)) ts →
         ∃ a, ts !! a = Some (primary_type (geometry_types s))
              ∧ ∀ b, b ≤ a → ts !! b ≠ Some t).
Proof.
  unfold analyze_statistics. destruct features as [| f0 fs] eqn:Heq; [done |].
  rewrite <- Heq.
  destruct (analyze_features h 0 features _) as [s' |] eqn:Hrun; [| done].
  intros [= ->].
  apply analyze_features_types in Hrun as (ts & Hall & Htypes). simpl in Htypes.
  fold (histogram ts) in Htypes. rewrite Htypes.
  destruct (histogram_spec ts) as (Hnd & Hkeys & Hcount & _ & Horder).
  exists ts. split; [done |].
  destruct (histogram ts) as [| item items] eqn:Hh.
  { exfalso. subst features. apply Forall2_cons_inv_l in Hall as (t & ts' & _ & _ & ->).
    assert (t ∈ (@nil (string * nat)).*1) as Hin by (apply Hkeys; left).
    by apply elem_of_nil in Hin. }
  unfold primary_type.
  destruct (max_by_count_spec item items) as (i & Hi & Hmax & Hfirst).
  set (r := max_by_count item items) in *. clearbody r.
  assert (count_of r.1 (item :: items) = r.2) as Hr.
  { apply count_of_entry; [done |]. destruct r. by eapply list_elem_of_lookup_2. }
  assert (∀ t, t ∈ ts → ∃ j, (item :: items) !! j = Some (t, occurrences t ts)) as Hentry.
  { intros t Hin. apply Hkeys, list_elem_of_fmap in Hin as ([k n] & Hk & Hin).
    simpl in Hk. subst k. apply list_elem_of_lookup in Hin as [j Hj]. exists j.
    rewrite <- Hcount, (count_of_entry _ t n); [done | done |].
    by eapply list_elem_of_lookup_2. }
  assert (r.1 ∈ ts) as Hin.
  { apply Hkeys, list_elem_of_fmap. exists r. split; [done |]. by eapply list_elem_of_lookup_2. }
  split_and!; [done | |].
  - intros t. rewrite <- (Hcount r.1), Hr.
    destruct (decide (t ∈ ts)) as [Ht | Ht].
    + destruct (Hentry t Ht) as [j Hj]. apply (Hmax j _ Hj).
    + destruct (occurrences t ts) eqn:Ho; [lia |].
      exfalso. apply Ht, occurrences_pos. lia.
  - intros t Hne Htie.
    assert (t ∈ ts) as Ht.
    { apply occurrences_pos. rewrite Htie. by apply occurrences_pos. }
    destruct (Hentry t Ht) as [j Hj].
    rewrite <- (Hcount r.1), Hr in Htie.
    assert (i < j) as Hij.
    { destruct (decide (i = j)) as [-> | Hneq];
        [rewrite Hi in Hj; injection Hj as ->; by destruct Hne |].
      destruct (decide (j < i)) as [Hlt |]; [| lia].
      specialize (Hfirst j _ Hlt Hj). simpl in Hfirst. lia. }
    apply (Horder i j); [done | |].
    + by rewrite list_lookup_fmap, Hi.
    + by rewrite list_lookup_fmap, Hj.
Qed.
End AnalysisFacts.

(** The sample collection has counts 1, 3 and 0. *)
Lemma analyze_statistics_counters_witness :
  ∃ s, analyze_statistics Collection.features Collection.objects = Some (Some s)
    ∧ ∃ cs, Forall2 (λ f c, feature_count f Collection.objects = Some c)
                    Collection.features cs
      ∧ total_coords s = sum_list cs ∧ max_coords s = max_list cs
      ∧ max_coords_idx s < 3.
Proof.
  destruct (analyze_statistics Collection.features Collection.objects) as [[s |] |] eqn:Hrun;
    [| vm_compute in Hrun; discriminate ..].
  exists s. split; [done |].
  destruct (analyze_statistics_counters _ _ _ Hrun) as (cs & Hall & Htot & Hmax & Hidx & _).
  exists cs. by split_and!.
Defined.

(** The minimum of the sample collection is one of its counts. *)
Lemma analyze_statistics_min_witness :
  ∃ s, analyze_statistics Collection.features Collection.objects = Some (Some s)
    ∧ ∃ cs, Forall2 (λ f c, feature_count f Collection.objects = Some c)
                    Collection.features cs
      ∧ ∀ m, min_coords s = Some m → m ∈ cs ∧ 0 < m.
Proof.
  destruct (analyze_statistics Collection.features Collection.objects) as [[s |] |] eqn:Hrun;
    [| vm_compute in Hrun; discriminate ..].
  exists s. split; [done |].
  destruct (analyze_statistics_min _ _ _ Hrun) as (cs & Hall & _ & Hsome).
  exists cs. split; [done |]. intros m Hm. apply Hsome in Hm as (? & ? & _). done.
Defined.

(** The counts of the histogram of the sample collection add up to 3. *)
Lemma analyze_statistics_histogram_witness :
  ∃ s, analyze_statistics Collection.features Collection.objects = Some (Some s)
    ∧ NoDup (geometry_types s).*1 ∧ sum_list (geometry_types s).*2 = 3.
Proof.
  destruct (analyze_statistics Collection.features Collection.objects) as [[s |] |] eqn:Hrun;
    [| vm_compute in Hrun; discriminate ..].
  exists s. split; [done |].
  destruct (analyze_statistics_histogram _ _ _ Hrun) as (ts & _ & Hnd & _ & Hsum & _).
  done.
Defined.

(** The dominant type of the sample collection is the tag of one of its
    features. *)
Lemma analyze_statistics_primary_type_witness :
  ∃ s, analyze_statistics Collection.features Collection.objects = Some (Some s)
    ∧ ∃ ts, Forall2 (λ f t, feature_type f Collection.objects = Some t)
                    Collection.features ts
      ∧ primary_type (geometry_types s) ∈ ts.
Proof.
  destruct (analyze_statistics Collection.features Collection.objects) as [[s |] |] eqn:Hrun;
    [| vm_compute in Hrun; discriminate ..].
  exists s. split; [done |].
  destruct (analyze_statistics_primary_type _ _ _ Hrun) as (ts & Hall & Hin & _).
  by exists ts.
Defined.

(** ** The two passes on the same features *)

Section TwoPasses.
Context {num : Type} `{!Arith num, !Rounding num} {A : Type}.
Implicit Types (g : geometry num) (h : heap num) (tol : num) (r : loc) (p : Z)
               (f : feature A) (features : list (feature A)) (cs : list nat).

Lemma Forall2_impl_on {X Y : Type} (P : X → Prop) (Q Q' : X → Y → Prop) xs ys :
  Forall P xs → Forall2 Q xs ys → (∀ x y, P x → Q x y → Q' x y) → Forall2 Q' xs ys.
Proof.
  intros HP HQ Himp. induction HQ as [| x y xs ys Hxy _ IH]; [constructor |].
  apply Forall_cons in HP as [Hx HP]. constructor; auto.
Qed.

Lemma feature_counts_unique features h cs cs' :
  Forall2 (λ f c, feature_count f h = Some c) features cs →
  Forall2 (λ f c, feature_count f h = Some c) features cs' → cs = cs'.
Proof.
  intros H. revert cs'. induction H as [| f c fs cs Hc _ IH]; intros cs' H'.
  - by apply Forall2_nil_inv_l in H'.
  - apply Forall2_cons_inv_l in H' as (c' & cs'' & Hc' & H' & ->).
    f_equal; [congruence | by apply IH].
Qed.

(** The geometry an optimized feature points to is a dict. *)
Lemma optimize_feature_dict tol p f h f' cb ca h' l' :
  optimize_feature tol p f h = Some (f', cb, ca, h') → f_geometry f' = Some l' →
  ∃ ty co ms, h' !! l' = Some (GDict ty co ms).
Proof.
  unfold optimize_feature.
  destruct (feature_geometry f h) as [g |] eqn:Hfg; simpl; [| done].
  destruct (count_coordinates g) as [n |] eqn:Hn; simpl; [| done].
  destruct g as [| ty co ms] eqn:Hgeq; simpl; [done |]. rewrite <- Hgeq in *.
  set (l1 := fresh (dom h)).
  destruct (simplify_geometry l1 tol (<[l1 := g]> h)) as [[r1 h2] |] eqn:Hs; simpl; [| done].
  destruct (simplify_geometry_writes _ _ _ _ _ Hs) as (-> & g0 & Hg0 & Hh2).
  rewrite lookup_insert_eq in Hg0. injection Hg0 as <-.
  destruct (round_coordinates l1 p h2) as [[r2 h3] |] eqn:Hr; simpl; [| done].
  destruct (round_coordinates_writes _ _ _ _ _ Hr) as (-> & g1 & Hg1 & Hh3).
  destruct (h3 !! l1) as [g2 |] eqn:Hg2; simpl; [| done].
  destruct (count_coordinates g2); simpl; [| done].
  intros [= <- <- <- <-] [= <-].
  assert (∃ ty1 co1 ms1, g1 = GDict ty1 co1 ms1) as (ty1 & co1 & ms1 & ->).
  { destruct Hh2 as [-> | (c & ->)]; rewrite lookup_insert_eq in Hg1; injection Hg1 as <-;
      subst g; simpl; eauto. }
  destruct Hh3 as [-> | (c & ->)]; [eauto |].
  rewrite lookup_insert_eq. simpl. eauto.
Qed.

(** The loop, from any point of the run on: what it adds to the total
    before. *)
Lemma optimize_features_before tol p features acc tb ta h out tb' ta' h' :
  closed features h →
  optimize_features tol p features acc tb ta h = Some (out, tb', ta', h') →
  ∃ cs, Forall2 (λ f c, feature_count f h = Some c ∧ is_Some (feature_type f h))
                features cs
        ∧ tb' = tb + sum_list cs.
Proof.
  revert acc tb ta h. induction features as [| f features IH]; intros acc tb ta h Hclosed; simpl.
  { intros [= <- <- <- <-]. exists []. split; [constructor | simpl; lia]. }
  destruct (optimize_feature tol p f h) as [[[[f1 cb] ca] h1] |] eqn:Hf; simpl; [| done].
  destruct (optimize_feature_spec _ _ _ _ _ _ _ _ Hf)
    as (l1 & g & g1 & Hf1 & Hfresh & Hframe & Hfg & Hnn & Hcb & _).
  apply Forall_cons in Hclosed as [Hcf Hclosed].
  assert (∀ l, is_Some (h !! l) → h1 !! l = h !! l) as Hkeep1.
  { intros l Hl. apply Hframe. intros ->. rewrite Hfresh in Hl. by destruct Hl. }
  assert (closed features h1) as Hclosed1.
  { eapply Forall_impl; [exact Hclosed |]. intros f0 H0 l Hl. simpl in H0.
    rewrite Hkeep1; auto. }
  intros Hrun.
  destruct (IH _ _ _ _ Hclosed1 Hrun) as (cs & Hall & ->).
  exists (cb :: cs). split; [| simpl; lia]. constructor.
  - unfold feature_count, feature_type. rewrite Hfg. simpl. split; [done |].
    destruct g; [done | by eexists].
  - eapply Forall2_impl_on; [exact Hclosed | exact Hall |].
    intros f0 c H0 [Hc Ht]. simpl in *.
    assert (feature_geometry f0 h1 = feature_geometry f0 h) as Heq.
    { unfold feature_geometry. destruct (f_geometry f0) as [l |]; [| done]. by apply Hkeep1, H0. }
    unfold feature_count, feature_type in *. by rewrite <- Heq.
Qed.

(** The loop, from any point of the run on: what it adds to the total
    after. *)
Lemma optimize_features_after tol p features acc tb ta h out tb' ta' h' :
  optimize_features tol p features acc tb ta h = Some (out, tb', ta', h') →
  ∃ new cs, out = acc ++ new ∧ length new = length features
    ∧ Forall2 (λ f c, feature_count f h' = Some c ∧ is_Some (feature_type f h')) new cs
    ∧ ta' = ta + sum_list cs.
Proof.
  revert acc tb ta h. induction features as [| f features IH]; intros acc tb ta h; simpl.
  { intros [= <- <- <- <-].
    exists [], []. rewrite app_nil_r. split_and!; [done | done | constructor | simpl; lia]. }
  destruct (optimize_feature tol p f h) as [[[[f1 cb] ca] h1] |] eqn:Hf; simpl; [| done].
  destruct (optimize_feature_spec _ _ _ _ _ _ _ _ Hf)
    as (l1 & g & g1 & Hf1 & _ & _ & _ & _ & _ & Hl1 & _ & Hca & _).
  destruct (optimize_feature_dict _ _ _ _ _ _ _ _ l1 Hf) as (ty1 & co1 & ms1 & Hdict);
    [by subst f1 |].
  intros Hrun.
  destruct (optimize_features_spec _ _ _ _ _ _ _ _ _ _ _ Hrun) as (Hkeep & _).
  destruct (IH _ _ _ _ Hrun) as (new & cas & -> & Hlen & Hnew & ->).
  exists (f1 :: new), (ca :: cas).
  split_and!; [by rewrite <- app_assoc | simpl; lia | | simpl; lia].
  constructor; [| done].
  assert (h' !! l1 = Some g1) as Hl1'.
  { rewrite Hkeep; [done | by rewrite Hl1]. }
  unfold feature_count, feature_type, feature_geometry. subst f1. simpl.
  rewrite Hl1'. simpl. split; [done |].
  rewrite Hl1 in Hdict. injection Hdict as ->. by eexists.
Qed.

(** When the references of the features point into the heap, what the
    optimizing loop reports as the total before is the total the analysis
    loop computes for the same features. *)
Theorem optimize_total_before_is_analysed tol p features h out tb ta h' :
  closed features h → features ≠ [] →
  optimize_features tol p features [] 0 0 h = Some (out, tb, ta, h') →
  ∃ s, analyze_statistics features h = Some (Some s) ∧ total_coords s = tb.
Proof.
  intros Hclosed Hne Hrun.
  destruct (optimize_features_before _ _ _ _ _ _ _ _ _ _ _ Hclosed Hrun)
    as (cs & Hall & ->).
  unfold analyze_statistics. destruct features as [| f0 fs] eqn:Heq; [done |].
  rewrite <- Heq in *. clear Heq.
  destruct (analyze_features_is_Some h 0 features (Stats 0 0 0 None []) cs Hall) as [s Hs].
  exists s. rewrite Hs. split; [done |].
  apply analyze_features_counts in Hs as (cs' & Hall' & Htot & _).
  assert (cs' = cs) as ->.
  { eapply feature_counts_unique; [exact Hall' |].
    eapply List.Forall2_impl; [| exact Hall]. by intros ? ? [? _]. }
  simpl in Htot. lia.
Qed.

(** What the optimizing loop reports as the total after is the total the
    analysis loop computes for the optimized features. *)
Theorem optimize_total_after_is_analysed tol p features h out tb ta h' :
  features ≠ [] →
  optimize_features tol p features [] 0 0 h = Some (out, tb, ta, h') →
  ∃ s, analyze_statistics out h' = Some (Some s) ∧ total_coords s = ta.
Proof.
  intros Hne Hrun.
  destruct (optimize_features_after _ _ _ _ _ _ _ _ _ _ _ Hrun)
    as (new & cs & -> & Hlen & Hall & ->).
  simpl in *.
  unfold analyze_statistics. destruct new as [| f0 fs] eqn:Heq.
  { by destruct features. }
  rewrite <- Heq in *. clear Heq.
  destruct (analyze_features_is_Some h' 0 new (Stats 0 0 0 None []) cs Hall) as [s Hs].
  exists s. rewrite Hs. split; [done |].
  apply analyze_features_counts in Hs as (cs' & Hall' & Htot & _).
  assert (cs' = cs) as ->.
  { eapply feature_counts_unique; [exact Hall' |].
    eapply List.Forall2_impl; [| exact Hall]. by intros ? ? [? _]. }
  simpl in Htot. lia.
Qed.
End TwoPasses.

Lemma closed_collection : closed Collection.features Collection.objects.
Proof.
  repeat constructor; intros l [= <-]; by eexists.
Qed.

(** On the sample collection the analysis finds the total the optimizer
    reports as the one before. *)
Lemma optimize_total_before_is_analysed_witness :
  ∃ out tb ta h' s,
    optimize_features 0.001%float 4 Collection.features [] 0 0 Collection.objects
    = Some (out, tb, ta, h')
    ∧ analyze_statistics Collection.features Collection.objects = Some (Some s)
    ∧ total_coords s = tb.
Proof.
  destruct (optimize_features 0.001%float 4 Collection.features [] 0 0 Collection.objects)
    as [[[[out tb] ta] h'] |] eqn:Hrun; [| vm_compute in Hrun; discriminate].
  destruct (optimize_total_before_is_analysed _ _ _ _ _ _ _ _
              closed_collection ltac:(discriminate) Hrun) as (s & Hs & Htot).
  by exists out, tb, ta, h', s.
Defined.

(** On the sample collection the analysis of the optimized features finds
    the total the optimizer reports as the one after. *)
Lemma optimize_total_after_is_analysed_witness :
  ∃ out tb ta h' s,
    optimize_features 0.001%float 4 Collection.features [] 0 0 Collection.objects
    = Some (out, tb, ta, h')
    ∧ analyze_statistics out h' = Some (Some s)
    ∧ total_coords s = ta.
Proof.
  destruct (optimize_features 0.001%float 4 Collection.features [] 0 0 Collection.objects)
    as [[[[out tb] ta] h'] |] eqn:Hrun; [| vm_compute in Hrun; discriminate].
  destruct (optimize_total_after_is_analysed 0.001%float 4 Collection.features
              _ _ _ _ _ ltac:(discriminate) Hrun) as (s & Hs & Htot).
  by exists out, tb, ta, h', s.
Defined.

(** ** Douglas-Peucker and its tolerance *)

Section NegativeTolerance.
Context {num : Type} `{!Arith num}.
Implicit Types (points : list (value num)) (tol : num).

(** The scan leaves [index] and [dmax] as they are when no distance
    exceeds [dmax]. *)
Lemma farthest_unchanged points e range i0 d0 first last_ :
  points !! 0 = Some first → points !! e = Some last_ →
  (∀ i, i ∈ range → ∃ p d, points !! i = Some p
                           ∧ perpendicular_distance p first last_ = Some d
                           ∧ gt d d0 = false) →
  farthest points e range i0 d0 = Some (i0, d0).
Proof.
  intros Hfirst Hlast. induction range as [| i range IH]; intros Hall; simpl; [done |].
  destruct (Hall i) as (p & d & Hp & Hd & Hgt); [left |].
  rewrite Hp, Hfirst, Hlast. simpl. rewrite Hd. simpl. rewrite Hgt.
  apply IH. intros j Hj. apply Hall. by right.
Qed.

(** With a tolerance below zero, a line of three or more points none of
    which lies off the chord between its ends is never finished with: the
    second recursive call is on the very same list, whatever the depth
    allowed. *)
Theorem negative_tolerance_never_returns points tol first last_ :
  3 ≤ length points →
  points !! 0 = Some first → points !! (length points - 1) = Some last_ →
  (∀ i, 0 < i < length points - 1 →
        ∃ p d, points !! i = Some p ∧ perpendicular_distance p first last_ = Some d
               ∧ gt d zero = false) →
  gt zero tol = true →
  (∀ fuel, douglas_peucker fuel points tol = None)
  ∧ simplify_line (VList points) tol = None.
Proof.
  intros Hlen Hfirst Hlast Hflat Htol.
  assert (farthest points (length points - 1) (seq 1 (length points - 1 - 1)) 0 zero
          = Some (0, zero)) as Hf.
  { apply (farthest_unchanged _ _ _ _ _ first last_); [done | done |].
    intros i Hi%elem_of_seq. apply Hflat. lia. }
  assert (∀ fuel, douglas_peucker fuel points tol = None) as Hnever.
  { induction fuel as [| fuel IH]; simpl.
    - rewrite bool_decide_eq_false_2 by lia. done.
    - rewrite bool_decide_eq_false_2 by lia. rewrite Hf. simpl. rewrite Htol.
      rewrite drop_0, IH. by destruct (douglas_peucker fuel (take 1 points) tol). }
  split; [done |]. unfold simplify_line. simpl.
  rewrite bool_decide_eq_false_2 by lia. by rewrite Hnever.
Qed.
End NegativeTolerance.

(** Three points on one line, with a tolerance of -0.001. *)
Lemma negative_tolerance_never_returns_witness :
  (∀ fuel, douglas_peucker fuel flat_line (-0.001)%float = None)
  ∧ simplify_line (VList flat_line) (-0.001)%float = None.
Proof.
  apply (negative_tolerance_never_returns flat_line (-0.001)%float
           (Samples.pt 0 0) (Samples.pt 2 2)).
  - simpl. lia.
  - reflexivity.
  - reflexivity.
  - intros i Hi. simpl in Hi. assert (i = 1) as -> by lia.
    eexists _, _. split_and!; [reflexivity | vm_compute; reflexivity | vm_compute; reflexivity].
  - vm_compute. reflexivity.
Defined.

Section Tolerance.
Import Real.
Local Open Scope R_scope.
Implicit Types (p a b c : R * R) (pts kept : list (R * R)).





End Tolerance.

(** ** The two-point tests of the line branches *)

Section GuardFacts.
Context {num : Type} `{!Arith num}.
Implicit Types (g : geometry num) (v line : value num) (h : heap num)
               (points out : list (value num)) (tol : num) (r : loc).

(** The recursion returns at least two points of two or more. *)
Lemma douglas_peucker_two fuel points tol out :
  douglas_peucker fuel points tol = Some out → 2 ≤ length points → 2 ≤ length out.
Proof.
  revert points out. induction fuel as [| fuel IH]; intros points out; simpl.
  { case_bool_decide; [| done]. by intros [= <-]. }
  case_bool_decide as Hlen; [by intros [= <-] |].
  destruct (farthest _ _ _ _ _) as [[index dmax] |] eqn:Hf; simpl; [| done].
  apply farthest_pivot in Hf as [Hidx _]; [| lia].
  destruct (gt dmax tol).
  - destruct (douglas_peucker fuel (take (index + 1) points) tol) as [out1 |]; simpl; [| done].
    destruct (douglas_peucker fuel (drop index points) tol) as [out2 |] eqn:H2; simpl; [| done].
    intros [= <-] _. apply IH in H2; [| rewrite length_drop; lia].
    rewrite length_app. lia.
  - destruct (points !! 0); simpl; [| done].
    destruct (points !! (length points - 1)); simpl; [| done].
    by intros [= <-].
Qed.

(** [simplify_line] returns a list, of at least two points when the line
    has two or more, and the line itself when it has fewer. *)
Lemma simplify_line_two v tol v' :
  simplify_line v tol = Some v' →
  ∃ points out, v = VList points ∧ v' = VList out
    ∧ (2 ≤ length points → 2 ≤ length out) ∧ (length points < 2 → out = points).
Proof.
  destruct v as [| x | points]; try done. unfold simplify_line. simpl.
  case_bool_decide as Hlen.
  - intros [= <-]. by exists points, points.
  - destruct (douglas_peucker _ _ _) as [out |] eqn:Hdp; intros [= <-].
    exists points, out. split_and!; [done | done | | lia].
    intros _. eapply douglas_peucker_two; [done | lia].
Qed.

(** In the loop over the lines of a MultiLineString the test
    [len(simplified) >= 2] never decides anything: what is appended is
    what [simplify_line] returns, and the loop raises where it raises. *)
Theorem two_point_guard_of_lines tol line :
  simplify_or_keep 2 tol line = simplify_line line tol.
Proof.
  unfold simplify_or_keep.
  destruct (simplify_line line tol) as [s |] eqn:Hs; simpl; [| done].
  destruct (simplify_line_two _ _ _ Hs) as (points & out & -> & -> & Hge & Hlt).
  simpl. case_bool_decide as Hlen; [done |].
  rewrite Hlt; [done |]. destruct (decide (2 ≤ length points)); [| lia].
  specialize (Hge ltac:(done)). lia.
Qed.

(** Nor does it for a LineString: after [simplify_geometry] the
    coordinates of the record are what [simplify_line] returns for the
    coordinates it had, whether or not they were written. *)
Theorem two_point_guard_of_linestring h r g tol r' h' :
  h !! r = Some g → get_type g = "LineString"%string →
  simplify_geometry r tol h = Some (r', h') →
  ∃ g', h' !! r' = Some g'
        ∧ simplify_line (get_coordinates g (VList [])) tol
          = Some (get_coordinates g' (VList [])).
Proof.
  intros Hg Hty Hs. destruct (get_type_inv g _ Hty) as (co & ms & ->); [done |].
  rewrite (simplify_geometry_LineString _ _ _ _ _ Hg) in Hs.
  change (get_coordinates (GDict (Some "LineString"%string) co ms) (VList []))
    with (default (VList []) co).
  destruct (simplify_line _ _) as [s |] eqn:Hline; simpl in Hs; [| done].
  destruct (simplify_line_two _ _ _ Hline) as (points & out & Hco & -> & Hge & Hlt).
  simpl in Hs. case_bool_decide as Hlen; injection Hs as <- <-.
  - eexists. rewrite lookup_insert_eq. split; [done |]. done.
  - exists (GDict (Some "LineString"%string) co ms). split; [done |].
    change (get_coordinates (GDict (Some "LineString"%string) co ms) (VList []))
      with (default (VList []) co).
    rewrite Hco, Hlt; [done |].
    destruct (decide (2 ≤ length points)); [| lia]. specialize (Hge ltac:(done)). lia.
Qed.
End GuardFacts.

(** The three-point line. *)
Lemma two_point_guard_of_linestring_witness :
  ∃ h' g', simplify_geometry 0 0.001%float {[0 := Samples.a_line]} = Some (0, h')
    ∧ h' !! 0 = Some g'
    ∧ simplify_line (get_coordinates Samples.a_line (VList [])) 0.001%float
      = Some (get_coordinates g' (VList [])).
Proof.
  destruct (simplify_geometry 0 0.001%float {[0 := Samples.a_line]}) as [[r' h'] |] eqn:Hs;
    [| vm_compute in Hs; discriminate].
  assert (r' = 0) as -> by (vm_compute in Hs; congruence).
  destruct (two_point_guard_of_linestring {[0 := Samples.a_line]} 0 Samples.a_line
              0.001%float 0 h') as (g' & Hg' & Hline); [reflexivity | reflexivity | exact Hs |].
  by exists h', g'.
Defined.
